(** * update_exceptions.py: the catch-block rewriting engine

    A shallow embedding of [src/update_exceptions.py].  The script is a
    regular-expression rewriter, so the embedding has three layers:

    - Python text: a [str] is a list of Unicode code points;
    - the fragment of Python's [re] module the script uses: a backtracking
      matcher with greedy and lazy quantifiers and capture groups, and
      [re.search], [pattern.sub], [pattern.finditer] and [pattern.findall]
      on top of it;
    - the script itself: [update_catch_blocks] with its nested
      [replacement], and [process_file] and [main] over a store of files,
      which are read with their line ends translated and may refuse to
      be written.

    The definitions come first; the facts about the matcher, about the
    patterns of the script and about the script follow. *)

From Stdlib Require Import NArith String Ascii List Lia Bool.
From stdpp Require Import base option list strings gmap.

Local Open Scope N_scope.
Local Open Scope list_scope.

(** * Python text *)

(** A Python [str] is a sequence of code points. *)
Abbreviation char := N.
Abbreviation str := (list N).

(** A source literal, as the code points of its (ASCII) characters.  Rocq
    strings have no escape sequences: a backslash in one is a backslash. *)
Fixpoint s2l (s : string) : str :=
  match s with
  | EmptyString => []
  | String a s' => N_of_ascii a :: s2l s'
  end.

Arguments s2l s%_string.

Definition LF : char := 10.
Definition QUOTE : char := 39.     (* ' *)
Definition DQUOTE : char := 34.    (* the double quote *)
Definition COMMA : char := 44.
Definition SEMI : char := 59.

(** [str.isspace] on one code point, which is what [\s] tests in a [str]
    pattern compiled without [re.ASCII]. *)
Definition isspace (c : char) : bool :=
  ((9 <=? c) && (c <=? 13)) || ((28 <=? c) && (c <=? 32))
  || (c =? 133) || (c =? 160) || (c =? 5760)
  || ((8192 <=? c) && (c <=? 8202))
  || (c =? 8232) || (c =? 8233) || (c =? 8239) || (c =? 8287) || (c =? 12288).

(** [needle in haystack] on strings. *)
Fixpoint starts_with (p s : str) : bool :=
  match p, s with
  | [], _ => true
  | a :: p', b :: s' => (a =? b) && starts_with p' s'
  | _ :: _, [] => false
  end.

Fixpoint contains (needle s : str) : bool :=
  starts_with needle s ||
  match s with
  | [] => false
  | _ :: s' => contains needle s'
  end.

(** * The fragment of [re] the script uses *)

(** One-character items. *)
Inductive cset :=
| CSpace                     (* \s *)
| CNot (c : char)            (* [^c] *)
| COneOf (c1 c2 : char)      (* [c1c2] *)
| CChr (c : char)            (* a literal character *)
| CAny.                      (* . under re.DOTALL *)

Definition cmatch (a : cset) (c : char) : bool :=
  match a with
  | CSpace => isspace c
  | CNot x => negb (c =? x)
  | COneOf x y => (c =? x) || (c =? y)
  | CChr x => c =? x
  | CAny => true
  end.

(** Patterns.  Every quantifier of the script's patterns applies to a
    one-character item, and so do the quantifiers here. *)
Inductive regex :=
| Lit (l : str)              (* a run of literal characters *)
| One (a : cset)             (* a      *)
| Plus (a : cset)            (* a+     greedy *)
| Star (a : cset)            (* a*     greedy *)
| Opt (a : cset)             (* a?     greedy *)
| LazyStar (a : cset)        (* a*?    *)
| Group (n : nat) (r : regex)  (* the n-th capturing group *)
| Seq (r1 r2 : regex).

Declare Scope regex_scope.
Delimit Scope regex_scope with re.
Bind Scope regex_scope with regex.
Infix "⋅" := Seq (at level 60, right associativity) : regex_scope.

(** Captured groups, most recently closed first. *)
Definition caps := list (nat * str).

Fixpoint group_of (c : caps) (n : nat) : str :=
  match c with
  | [] => []
  | (m, s) :: c' => if Nat.eqb m n then s else group_of c' n
  end.

Section Matcher.
Context {R : Type}.

Fixpoint lit (l s : str) : option str :=
  match l, s with
  | [], _ => Some s
  | a :: l', b :: s' => if a =? b then lit l' s' else None
  | _ :: _, [] => None
  end.

(** Greedy repetition: take one more character first, and come back to
    the continuation with what was taken so far when that fails. *)
Fixpoint star (a : cset) (s : str) (k : str → option R) : option R :=
  match s with
  | c :: s' =>
      if cmatch a c
      then match star a s' k with
           | Some r => Some r
           | None => k s
           end
      else k s
  | [] => k s
  end.

Definition plus (a : cset) (s : str) (k : str → option R) : option R :=
  match s with
  | c :: s' => if cmatch a c then star a s' k else None
  | [] => None
  end.

Definition opt (a : cset) (s : str) (k : str → option R) : option R :=
  match s with
  | c :: s' =>
      if cmatch a c
      then match k s' with
           | Some r => Some r
           | None => k s
           end
      else k s
  | [] => k s
  end.

(** Lazy repetition: try the continuation first, take a character only
    when it fails. *)
Fixpoint lazy_star (a : cset) (s : str) (k : str → option R) : option R :=
  match k s with
  | Some r => Some r
  | None =>
      match s with
      | c :: s' => if cmatch a c then lazy_star a s' k else None
      | [] => None
      end
  end.

(** The backtracking matcher, in continuation-passing style: [run r s c k]
    matches [r] at the head of [s] and hands the rest of the text and
    the groups to [k]; the first way of matching that [k] accepts wins. *)
Fixpoint run (r : regex) (s : str) (c : caps)
    (k : str → caps → option R) : option R :=
  match r with
  | Lit l => match lit l s with Some s' => k s' c | None => None end
  | One a =>
      match s with
      | x :: s' => if cmatch a x then k s' c else None
      | [] => None
      end
  | Plus a => plus a s (λ s', k s' c)
  | Star a => star a s (λ s', k s' c)
  | Opt a => opt a s (λ s', k s' c)
  | LazyStar a => lazy_star a s (λ s', k s' c)
  | Group n r1 =>
      run r1 s c (λ s' c', k s' ((n, take (length s - length s') s) :: c'))
  | Seq r1 r2 => run r1 s c (λ s' c', run r2 s' c' k)
  end.
End Matcher.

(** A match object: the text of the whole match, its groups, and the text
    after the match. *)
Record rmatch := RMatch { m_all : str; m_caps : caps; m_rest : str }.

(** [group(n)]; 0 is the whole match. *)
Definition group (m : rmatch) (n : nat) : str :=
  match n with
  | O => m_all m
  | _ => group_of (m_caps m) n
  end.

(** [pattern.match]: a match at the head of the text. *)
Definition match_here (r : regex) (s : str) : option rmatch :=
  run r s [] (λ s' c, Some (RMatch (take (length s - length s') s) c s')).

(** [re.search]: the leftmost position with a match. *)
Fixpoint search (r : regex) (s : str) : option rmatch :=
  match match_here r s with
  | Some m => Some m
  | None =>
      match s with
      | [] => None
      | _ :: s' => search r s'
      end
  end.

(** [pattern.sub(repl, text)] with a function for [repl]: matches are
    taken left to right and do not overlap, the text between them is
    copied.  [skip] counts the characters of the current match that are
    still to be passed over.  The patterns of the script cannot match the
    empty string, so the rule of [re] for empty matches is not needed: an
    empty match here would put its replacement and move on one character. *)
Fixpoint sub_go (r : regex) (repl : rmatch → str) (skip : nat) (s : str) : str :=
  match skip with
  | S n => match s with [] => [] | _ :: s' => sub_go r repl n s' end
  | O =>
      match match_here r s with
      | Some m =>
          repl m ++
          match s with
          | [] => []
          | x :: s' =>
              match length (m_all m) with
              | O => x :: sub_go r repl O s'
              | S n => sub_go r repl n s'
              end
          end
      | None =>
          match s with
          | [] => []
          | x :: s' => x :: sub_go r repl O s'
          end
      end
  end.

Definition sub (r : regex) (repl : rmatch → str) (s : str) : str :=
  sub_go r repl O s.

(** [pattern.finditer(text)]: the matches, left to right, not
    overlapping. *)
Fixpoint finditer_go (r : regex) (skip : nat) (s : str) : list rmatch :=
  match skip with
  | S n => match s with [] => [] | _ :: s' => finditer_go r n s' end
  | O =>
      match match_here r s with
      | Some m =>
          m ::
          match s with
          | [] => []
          | _ :: s' => finditer_go r (pred (length (m_all m))) s'
          end
      | None =>
          match s with
          | [] => []
          | _ :: s' => finditer_go r O s'
          end
      end
  end.

Definition finditer (r : regex) (s : str) : list rmatch := finditer_go r O s.

(** [pattern.findall(text)] for a pattern without groups: the texts of the
    matches. *)
Definition findall (r : regex) (s : str) : list str := map m_all (finditer r s).

(** * The script *)

Definition ws1 : regex := Plus CSpace.   (* \s+ *)
Definition ws0 : regex := Star CSpace.   (* \s* *)
Definition nl : regex := Lit [LF].       (* \n  *)
Definition quote_chr : regex := One (COneOf QUOTE DQUOTE).   (* the class of the two quote characters *)

(** The pattern of [update_catch_blocks], with the content of its three
    groups named.  [re.MULTILINE] only changes [^] and [$], which the
    pattern does not use. *)
Definition extraction_line : regex :=
  (Lit (s2l "}") ⋅ ws1 ⋅ Lit (s2l "catch") ⋅ ws1 ⋅ Lit (s2l "(GuzzleException") ⋅ ws1
   ⋅ Lit (s2l "$e)") ⋅ ws1 ⋅ Lit (s2l "{") ⋅ ws0 ⋅ nl
   ⋅ ws1 ⋅ Lit (s2l "$errorMessage") ⋅ ws1 ⋅ Lit (s2l "=") ⋅ ws1
   ⋅ Lit (s2l "$this->extractErrorMessage($e);"))%re.

Definition logger_line : regex :=
  (ws1 ⋅ Lit (s2l "$this->logger->error(") ⋅ Plus (CNot COMMA) ⋅ Lit (s2l ",") ⋅ ws1
   ⋅ Lit (s2l "[") ⋅ quote_chr ⋅ Lit (s2l "error") ⋅ quote_chr ⋅ ws1 ⋅ Lit (s2l "=>") ⋅ ws1
   ⋅ Lit (s2l "$errorMessage"))%re.

Definition throw_stmt : regex :=
  (Lit (s2l "throw") ⋅ ws1 ⋅ Lit (s2l "new") ⋅ ws1 ⋅ Lit (s2l "RagApiException(")
   ⋅ Plus (CNot COMMA) ⋅ Lit (s2l ",") ⋅ ws1 ⋅ Lit (s2l "$e->getCode(),") ⋅ ws1
   ⋅ Lit (s2l "$e)"))%re.

Definition throw_line : regex := (ws1 ⋅ throw_stmt)%re.

Definition pattern : regex :=
  (Group 1 extraction_line ⋅ ws0 ⋅ nl
   ⋅ Group 2 logger_line ⋅ Lit (s2l "]") ⋅ Opt (CChr SEMI) ⋅ ws0 ⋅ nl
   ⋅ Group 3 throw_line ⋅ Lit (s2l ";"))%re.

(** The pattern [replacement] searches the throw line with. *)
Definition error_pattern : regex :=
  (Lit (s2l "throw") ⋅ ws1 ⋅ Lit (s2l "new") ⋅ ws1 ⋅ Lit (s2l "RagApiException('")
   ⋅ Group 1 (Plus (CNot QUOTE)) ⋅ Lit [QUOTE])%re.

(** The text [replacement] builds in [new_block], for a given [indent].
    The lines built from f-strings spell the dollar sign [\$]; Python
    keeps the backslash of an escape sequence it does not know, so those
    lines carry it into the text. *)
Definition new_block (indent error_msg_line logger_line error_description : str) : str :=
  error_msg_line ++ [LF]
  ++ indent ++ s2l "$errorData = $this->extractErrorData($e);" ++ [LF]
  ++ indent ++ s2l "$errorCode = $this->extractErrorCode($e);" ++ [LF]
  ++ logger_line ++ s2l ", 'error_code' => $errorCode];" ++ [LF]
  ++ indent ++ s2l "throw new RagApiException(" ++ [LF]
  ++ indent ++ s2l "    '" ++ error_description ++ s2l "' . \$errorMessage," ++ [LF]
  ++ indent ++ s2l "    \$e->getCode()," ++ [LF]
  ++ indent ++ s2l "    \$e," ++ [LF]
  ++ indent ++ s2l "    null," ++ [LF]
  ++ indent ++ s2l "    \$errorCode," ++ [LF]
  ++ indent ++ s2l "    \$errorData" ++ [LF]
  ++ indent ++ s2l ");".

(** [indent = '            '  # Standard indentation]: twelve spaces. *)
Definition indent : str := s2l "            ".

(** The nested function [replacement]. *)
Definition replacement (m : rmatch) : str :=
  let error_msg_line := group m 1 in
  let logger_line := group m 2 in
  let throw_line := group m 3 in
  match search error_pattern throw_line with
  | None => group m 0
  | Some error_match =>
      let error_description := group error_match 1 in
      new_block indent error_msg_line logger_line error_description
  end.

Definition update_catch_blocks (content : str) : str :=
  sub pattern replacement content.

(** The marker [process_file] looks for. *)
Definition marker : str := s2l "extractErrorData".

(** The pattern of the check in [process_file], compiled with
    [re.DOTALL]: the dot matches every character. *)
Definition gate_pattern : regex :=
  (Lit (s2l "extractErrorMessage") ⋅ LazyStar CAny ⋅ nl
   ⋅ LazyStar CAny ⋅ Lit (s2l "logger->error") ⋅ LazyStar CAny ⋅ nl
   ⋅ LazyStar CAny ⋅ Lit (s2l "throw new RagApiException") ⋅ LazyStar CAny
   ⋅ Lit (s2l "$e->getCode") ⋅ LazyStar CAny ⋅ Lit (s2l ";"))%re.

(** [needs_update]: the matches of the check that lack the marker. *)
Definition needs_update (content : str) : nat :=
  length (filter (λ m, contains marker m = false) (findall gate_pattern content)).

(** What [process_file] prints. *)
Inductive report :=
| Processing (filepath : string)
| AlreadyFullyUpdated
| StillNeedingUpdate (n : nat)
| NoChangesMade
| UpdatedSuccessfully
| ErrorReport.

(** A file: its characters as they are stored, and whether it can be
    opened for writing.  A path that cannot be opened for reading, or
    whose bytes are not UTF-8, is not in the store. *)
Record file := File { f_data : str; f_writable : bool }.

#[global] Instance file_eq_dec : EqDecision file.
Proof. solve_decision. Defined.

Abbreviation files := (gmap string file).

Definition CR : char := 13.

(** The translation of line ends when a file is read in text mode with
    the default [newline=None]: [\r\n] and a lone [\r] are read as [\n]. *)
Fixpoint universal_newlines (s : str) : str :=
  match s with
  | [] => []
  | c :: s' =>
      if c =? CR
      then LF :: match s' with
                 | d :: s'' =>
                     if d =? LF then universal_newlines s'' else universal_newlines s'
                 | [] => []
                 end
      else c :: universal_newlines s'
  end.

(** [with open(filepath, 'r', encoding='utf-8') as f: content = f.read()];
    [None] when opening raises. *)
Definition read_text (fs : files) (filepath : string) : option str :=
  match fs !! filepath with
  | Some f => Some (universal_newlines (f_data f))
  | None => None
  end.

(** [with open(filepath, 'w', encoding='utf-8') as f: f.write(text)], on a
    system whose line separator is [\n]: the characters are stored as
    they are.  Opening a file that is not writable raises and leaves the
    file as it is: [None]. *)
Definition write_text (fs : files) (filepath : string) (text : str) : option files :=
  match fs !! filepath with
  | Some f =>
      if f_writable f then Some (<[filepath := File text true]> fs) else None
  | None => Some (<[filepath := File text true]> fs)
  end.

Record outcome := Outcome {
  o_files : files;          (* the files afterwards *)
  o_printed : list report;  (* the lines printed, in order *)
  o_result : bool           (* the value returned *)
}.

(** [process_file].  Whatever raises inside the [try] is caught by the
    handler, which prints the error and returns [False]: opening the file
    for reading, and opening it for writing.  [check] is the count of the
    blocks still to update when the marker is in the content. *)
Definition process_file (fs : files) (filepath : string) : outcome :=
  match read_text fs filepath with
  | None => Outcome fs [Processing filepath; ErrorReport] false
  | Some content =>
      let check :=
        if contains marker content then Some (needs_update content) else None in
      match check with
      | Some O => Outcome fs [Processing filepath; AlreadyFullyUpdated] false
      | _ =>
          let found :=
            match check with
            | Some n => [StillNeedingUpdate n]
            | None => []
            end in
          let updated_content := update_catch_blocks content in
          if decide (updated_content = content)
          then Outcome fs ([Processing filepath] ++ found ++ [NoChangesMade]) false
          else
            match write_text fs filepath updated_content with
            | Some fs' =>
                Outcome fs' ([Processing filepath] ++ found ++ [UpdatedSuccessfully]) true
            | None =>
                Outcome fs ([Processing filepath] ++ found ++ [ErrorReport]) false
            end
      end
  end.

(** The paths [main] goes through, in its order. *)
Definition main_files : list string :=
  [ "src/Client/RagClient.php"; "src/Client/AdminClient.php";
    "src/Client/OrganizationClient.php" ]%string.

(** What [main] prints: the lines of [process_file], then an empty line
    and the count between two rules of [=]. *)
Inductive main_line :=
| FileLine (r : report)
| EmptyLine
| RuleLine (width : nat)
| UpdatedFiles (updated_count total : nat).

(** The loop of [main]: the files, [updated_count] and the lines printed
    are threaded through the calls of [process_file]. *)
Fixpoint main_loop (l : list string) (fs : files) (updated_count : nat)
    (printed : list report) : files * nat * list report :=
  match l with
  | [] => (fs, updated_count, printed)
  | filepath :: l' =>
      let o := process_file fs filepath in
      main_loop l' (o_files o)
        (if o_result o then S updated_count else updated_count)
        (printed ++ o_printed o)
  end.

Record main_outcome := MainOutcome {
  mo_files : files;                (* the files afterwards *)
  mo_printed : list main_line;     (* the lines printed, in order *)
  mo_updated_count : nat           (* [updated_count] at the end *)
}.

(** [main]. *)
Definition main (fs : files) : main_outcome :=
  let '(fs', updated_count, printed) := main_loop main_files fs 0 [] in
  MainOutcome fs'
    (map FileLine printed
     ++ [EmptyLine; RuleLine 60; UpdatedFiles updated_count (length main_files); RuleLine 60])
    updated_count.

(** * Definitions for the proofs *)

(** ** The language of a pattern *)

(** [all_in a p]: every character of [p] is in the class [a]. *)
Definition all_in (a : cset) (p : str) : Prop := Forall (λ x, cmatch a x = true) p.

(** [den r p c c']: the text [p] is matched by [r], which takes the groups
    from [c] to [c']. *)
Fixpoint den (r : regex) (p : str) (c c' : caps) : Prop :=
  match r with
  | Lit l => p = l ∧ c' = c
  | One a => (∃ x, p = [x] ∧ cmatch a x = true) ∧ c' = c
  | Plus a => (p ≠ [] ∧ all_in a p) ∧ c' = c
  | Star a => all_in a p ∧ c' = c
  | Opt a => (p = [] ∨ ∃ x, p = [x] ∧ cmatch a x = true) ∧ c' = c
  | LazyStar a => all_in a p ∧ c' = c
  | Group n r1 => ∃ c1, den r1 p c c1 ∧ c' = (n, p) :: c1
  | Seq r1 r2 => ∃ p1 p2 c1, p = p1 ++ p2 ∧ den r1 p1 c c1 ∧ den r2 p2 c1 c'
  end.

(** A pattern that only matches texts with at least one character. *)
Definition nonempty (r : regex) : Prop := ∀ p c c', den r p c c' → p ≠ [].

(** [quiet r t z]: no match of [r] starts inside [t] when [z] follows it. *)
Definition quiet (r : regex) (t z : str) : Prop :=
  ∀ t1 t2, t = t1 ++ t2 → t2 ≠ [] → match_here r (t2 ++ z) = None.

(** ** Reading a text past a run of characters *)

(** [skip f s] drops the characters at the head of [s] that satisfy [f]. *)
Fixpoint skip (f : char → bool) (s : str) : str :=
  match s with
  | x :: s' => if f x then skip f s' else s
  | [] => []
  end.
Arguments skip f !s /.

Definition skipws : str → str := skip isspace.
Definition skip_to (x : char) : str → str := skip (λ y, negb (y =? x)).

(** [free x u]: the character [x] does not occur in [u]. *)
Definition free (x : char) (u : str) : Prop := Forall (λ y, negb (y =? x) = true) u.

(** Two known texts at the head of the two sides of an equation. *)
Inductive cmp := Clash | Same | LeftMore (k : str) | RightMore (k : str).

Fixpoint strip (l l' : str) : cmp :=
  match l, l' with
  | [], [] => Same
  | [], _ :: _ => RightMore l'
  | _ :: _, [] => LeftMore l
  | a :: k, b :: k' => if a =? b then strip k k' else Clash
  end.

Arguments s2l : simpl never.

(** ** The shapes of the texts of the patterns *)

Definition is_quote (q : char) : Prop := q = QUOTE ∨ q = DQUOTE.

Definition extraction_text (a1 a2 a3 a4 a5 a6 a7 a8 : str) : str :=
  s2l "}" ++ a1 ++ s2l "catch" ++ a2 ++ s2l "(GuzzleException" ++ a3 ++ s2l "$e)"
  ++ a4 ++ s2l "{" ++ a5 ++ [LF] ++ a6 ++ s2l "$errorMessage" ++ a7 ++ s2l "="
  ++ a8 ++ s2l "$this->extractErrorMessage($e);".

Definition logger_text (b1 x b2 : str) (q1 q2 : char) (b3 b4 : str) : str :=
  b1 ++ s2l "$this->logger->error(" ++ x ++ s2l "," ++ b2 ++ s2l "[" ++ [q1]
  ++ s2l "error" ++ [q2] ++ b3 ++ s2l "=>" ++ b4 ++ s2l "$errorMessage".

Definition throw_stmt_text (c2 c3 y c4 c5 : str) : str :=
  s2l "throw" ++ c2 ++ s2l "new" ++ c3 ++ s2l "RagApiException(" ++ y ++ s2l ","
  ++ c4 ++ s2l "$e->getCode()," ++ c5 ++ s2l "$e)".

Definition error_text (v1 v2 d : str) : str :=
  s2l "throw" ++ v1 ++ s2l "new" ++ v2 ++ s2l "RagApiException('" ++ d ++ [QUOTE].

Definition spaces (l : list str) : Prop := Forall (all_in CSpace) l.

Definition is_extraction_line (g : str) : Prop :=
  ∃ a1 a2 a3 a4 a5 a6 a7 a8,
    g = extraction_text a1 a2 a3 a4 a5 a6 a7 a8
    ∧ spaces [a1; a2; a3; a4; a5; a6; a7; a8].

Definition is_logger_line (g : str) : Prop :=
  ∃ b1 x b2 q1 q2 b3 b4,
    g = logger_text b1 x b2 q1 q2 b3 b4
    ∧ spaces [b1; b2; b3; b4] ∧ all_in (CNot 44) x ∧ x ≠ []
    ∧ is_quote q1 ∧ is_quote q2.

Definition is_throw_stmt (t : str) : Prop :=
  ∃ c2 c3 y c4 c5,
    t = throw_stmt_text c2 c3 y c4 c5
    ∧ spaces [c2; c3; c4; c5] ∧ all_in (CNot 44) y ∧ y ≠ [] ∧ c2 ≠ [] ∧ c3 ≠ [].

Definition is_error_text (p d : str) : Prop :=
  ∃ v1 v2,
    p = error_text v1 v2 d ∧ spaces [v1; v2] ∧ all_in (CNot 39) d ∧ d ≠ []
    ∧ v1 ≠ [] ∧ v2 ≠ [].

(** ** What the properties speak of *)

(** A candidate is eligible when the search of its throw line finds a
    description. *)
Definition eligible (m : rmatch) : Prop :=
  is_Some (search error_pattern (group m 3)).

Definition LPAREN : char := 40.

(** [upto x s]: the text of [s] before the first [x]. *)
Fixpoint upto (x : char) (s : str) : str :=
  match s with
  | [] => []
  | y :: s' => if y =? x then [] else y :: upto x s'
  end.

(** The first positional argument of a raise line: the text between the
    first parenthesis and the first comma after it. *)
Definition raise_first_argument (throw_line : str) : str :=
  upto COMMA (tail (skip_to LPAREN throw_line)).

(** The raise line of a match has a description to extract: somewhere in
    it, [throw new RagApiException(] is followed by a single-quoted text
    of at least one character. *)
Definition has_literal_description (throw_line : str) : Prop :=
  ∃ pre p d post, throw_line = pre ++ p ++ post ∧ is_error_text p d.

(** ** The fixed texts of the patterns *)

(** The fixed texts of the pattern of [update_catch_blocks], in the order
    the pattern has them. *)
Definition pattern_texts : list str :=
  [ s2l "}"; s2l "catch"; s2l "(GuzzleException"; s2l "$e)"; s2l "{"; [LF];
    s2l "$errorMessage"; s2l "="; s2l "$this->extractErrorMessage($e);";
    s2l "$this->logger->error("; s2l ","; s2l "["; s2l "error"; s2l "=>";
    s2l "]"; s2l "throw"; s2l "new"; s2l "RagApiException("; s2l "$e->getCode(),";
    s2l ";" ].

(** The fixed texts of the pattern of the check in [process_file]. *)
Definition gate_texts : list str :=
  [ s2l "extractErrorMessage"; [LF]; s2l "logger->error";
    s2l "throw new RagApiException"; s2l "$e->getCode"; s2l ";" ].

Definition DOLLAR : char := 36.
Definition RBRACE : char := 125.
Definition RPAREN : char := 41.

(** ** Files that need no writing *)

(** A file is settled when [process_file] finds nothing to write in it. *)
Definition settled (fs : files) (filepath : string) : Prop :=
  o_files (process_file fs filepath) = fs ∧ o_result (process_file fs filepath) = false.

(** ** Documents *)

(** Lines joined by line feeds. *)
Fixpoint unlines (l : list string) : str :=
  match l with
  | [] => []
  | [x] => s2l x
  | x :: l' => s2l x ++ [LF] ++ unlines l'
  end.

(** A candidate with the literal ['Foo failed: '] for first argument, at
    an indentation of eight spaces. *)
Definition block_foo : str := unlines [
 "} catch (GuzzleException $e) {";
 "        $errorMessage = $this->extractErrorMessage($e);";
 "        $this->logger->error('Query failed', ['error' => $errorMessage];";
 "        throw new RagApiException('Foo failed: ', $e->getCode(), $e);";
 "    }"]%string.

Definition doc_foo : str := s2l "    " ++ block_foo.

(** What [update_catch_blocks] makes of it. *)
Definition doc_foo_updated : str := unlines [
 "    } catch (GuzzleException $e) {";
 "        $errorMessage = $this->extractErrorMessage($e);";
 "            $errorData = $this->extractErrorData($e);";
 "            $errorCode = $this->extractErrorCode($e);";
 "        $this->logger->error('Query failed', ['error' => $errorMessage, 'error_code' => $errorCode];";
 "            throw new RagApiException(";
 "                'Foo failed: ' . \$errorMessage,";
 "                \$e->getCode(),";
 "                \$e,";
 "                null,";
 "                \$errorCode,";
 "                \$errorData";
 "            );";
 "    }"]%string.

(** The match of the pattern in [block_foo], and the match of the search
    in its throw line. *)
Definition no_match : rmatch := RMatch [] [] [].

Definition m_foo : rmatch :=
  Eval vm_compute in default no_match (match_here pattern block_foo).

Definition em_foo : rmatch :=
  Eval vm_compute in default no_match (search error_pattern (group m_foo 3)).

(** A candidate whose first argument is a variable. *)
Definition block_var : str := unlines [
 "} catch (GuzzleException $e) {";
 "        $errorMessage = $this->extractErrorMessage($e);";
 "        $this->logger->error('Query failed', ['error' => $errorMessage];";
 "        throw new RagApiException($message, $e->getCode(), $e);";
 "    }"]%string.

Definition m_var : rmatch :=
  Eval vm_compute in default no_match (match_here pattern block_var).

(** A candidate whose first argument is a literal followed by more. *)
Definition block_concat : str := unlines [
 "} catch (GuzzleException $e) {";
 "        $errorMessage = $this->extractErrorMessage($e);";
 "        $this->logger->error('Query failed', ['error' => $errorMessage];";
 "        throw new RagApiException('Foo: ' . $id, $e->getCode(), $e);";
 "    }"]%string.

Definition m_concat : rmatch :=
  Eval vm_compute in default no_match (match_here pattern block_concat).

(** A candidate whose first argument is the empty literal. *)
Definition block_empty : str := unlines [
 "} catch (GuzzleException $e) {";
 "        $errorMessage = $this->extractErrorMessage($e);";
 "        $this->logger->error('Query failed', ['error' => $errorMessage];";
 "        throw new RagApiException('', $e->getCode(), $e);";
 "    }"]%string.

Definition m_empty : rmatch :=
  Eval vm_compute in default no_match (match_here pattern block_empty).

(** An occurrence whose logging call has a second field in its mapping:
    the text up to the end of the first argument of the call, the text
    after the comma that follows the first field, and the whole. *)
Definition logger_call_head : str := unlines [
 "} catch (GuzzleException $e) {";
 "        $errorMessage = $this->extractErrorMessage($e);";
 "        $this->logger->error('Query failed'"]%string.

Definition block_extra_tail : str := unlines [
 " 'error_code' => $errorCode];";
 "        throw new RagApiException('Foo failed: ', $e->getCode(), $e);";
 "    }"]%string.

Definition block_extra : str := unlines [
 "} catch (GuzzleException $e) {";
 "        $errorMessage = $this->extractErrorMessage($e);";
 "        $this->logger->error('Query failed', ['error' => $errorMessage, 'error_code' => $errorCode];";
 "        throw new RagApiException('Foo failed: ', $e->getCode(), $e);";
 "    }"]%string.

(** The rest of that occurrence after the comma of the first field, and
    what follows the occurrence. *)
Definition block_extra_fields : str := unlines [
 " 'error_code' => $errorCode];";
 "        throw new RagApiException('Foo failed: ', $e->getCode(), $e);"]%string.

Definition block_closing : str := unlines [
 "";
 "    }"]%string.

(** A block of valid PHP, where the logging call is closed after the
    mapping, in a file that has the marker. *)
Definition doc_closed_call : str := unlines [
 "$errorData = $this->extractErrorData($e);";
 "    } catch (GuzzleException $e) {";
 "        $errorMessage = $this->extractErrorMessage($e);";
 "        $this->logger->error('Query failed', ['error' => $errorMessage]);";
 "        throw new RagApiException('Foo failed: ' . $errorMessage, $e->getCode(), $e);";
 "    }"]%string.

(** The candidate of [doc_closed_call]: the whole, the text from the end
    of the first argument of the logging call to the variable in the
    mapping, and the text after the [)] that closes the call. *)
Definition block_closed_call : str := unlines [
 "} catch (GuzzleException $e) {";
 "        $errorMessage = $this->extractErrorMessage($e);";
 "        $this->logger->error('Query failed', ['error' => $errorMessage]);";
 "        throw new RagApiException('Foo failed: ' . $errorMessage, $e->getCode(), $e);";
 "    }"]%string.

Definition closed_call_mid : str := s2l " ['error' => ".

Definition closed_call_tail : str := unlines [
 ";";
 "        throw new RagApiException('Foo failed: ' . $errorMessage, $e->getCode(), $e);";
 "    }"]%string.

(** A candidate with two spaces after [throw], in a file that has the
    marker. *)
Definition doc_wide_throw : str := unlines [
 "// extractErrorData";
 "    } catch (GuzzleException $e) {";
 "        $errorMessage = $this->extractErrorMessage($e);";
 "        $this->logger->error('Query failed', ['error' => $errorMessage];";
 "        throw  new RagApiException('Foo failed: ', $e->getCode(), $e);";
 "    }"]%string.

(** A file without any occurrence of the idiom. *)
Definition doc_plain : str := unlines [
 "<?php";
 "echo 'nothing to catch';"]%string.

(** ** Reading a rewritten block *)

(** [text.split('\n')]. *)
Fixpoint lines_go (cur : str) (s : str) : list str :=
  match s with
  | [] => [rev cur]
  | x :: s' => if x =? LF then rev cur :: lines_go [] s' else lines_go (x :: cur) s'
  end.
Definition lines (s : str) : list str := lines_go [] s.

(** A line without the white space around it and without the comma that
    ends it. *)
Definition strip_comma (s : str) : str :=
  match rev (skipws s) with
  | x :: r => if x =? COMMA then rev r else rev (x :: r)
  | [] => []
  end.

(** The positional arguments of the raise statement of a rewritten block:
    the lines between the one that opens the call and the one that closes
    it. *)
Fixpoint raise_arguments_go (inside : bool) (l : list str) : list str :=
  match l with
  | [] => []
  | x :: l' =>
      if inside
      then if starts_with (s2l ");") (skipws x) then []
           else strip_comma x :: raise_arguments_go true l'
      else raise_arguments_go (starts_with (s2l "throw new RagApiException(") (skipws x)) l'
  end.
Definition raise_arguments (block : str) : list str :=
  raise_arguments_go false (lines block).

(** [take_ws s]: the white space [s] starts with. *)
Fixpoint take_ws (s : str) : str :=
  match s with
  | x :: s' => if isspace x then x :: take_ws s' else []
  | [] => []
  end.

(** The indentation captured from an occurrence: the white space its
    throw line, the third group, starts with. *)
Definition captured_indent (m : rmatch) : str := take_ws (group m 3).

(** ['\n'.join(l)]. *)
Fixpoint join_lines (l : list str) : str :=
  match l with
  | [] => []
  | [x] => x
  | x :: l' => x ++ [LF] ++ join_lines l'
  end.

(** What [replacement] writes after the indentation on the lines it adds:
    the two statements before the logging line, and the arguments of the
    raise statement, for a description. *)
Definition added_statements : list str :=
  [ s2l "$errorData = $this->extractErrorData($e);";
    s2l "$errorCode = $this->extractErrorCode($e);" ].

Definition raise_argument_lines (error_description : str) : list str :=
  [ s2l "'" ++ error_description ++ s2l "' . \$errorMessage,"; s2l "\$e->getCode(),";
    s2l "\$e,"; s2l "null,"; s2l "\$errorCode,"; s2l "\$errorData" ].

(** A single-quoted literal: a quote, a text without quotes, a quote. *)
Definition single_quoted (a : str) : Prop :=
  ∃ d, a = [QUOTE] ++ d ++ [QUOTE] ∧ free QUOTE d.

Definition a_php : string := "src/Client/RagClient.php".

(** The number of blocks a pass rewrites: the candidates that are
    eligible. *)
Definition rewrites (content : str) : nat :=
  length (filter (λ m, bool_decide (eligible m)) (finditer pattern content)).

(** ** The raise statement of a rewritten block *)

(** The lines of the arguments of a raise statement: each on a line of its
    own, four spaces in from [indent], a comma after all but the last. *)
Fixpoint argument_lines (args : list str) : str :=
  match args with
  | [] => []
  | [a] => indent ++ s2l "    " ++ a ++ [LF]
  | a :: args' => indent ++ s2l "    " ++ a ++ s2l "," ++ [LF] ++ argument_lines args'
  end.

(** A raise statement with the given positional arguments, as
    [replacement] lays it out. *)
Definition raise_statement (args : list str) : str :=
  indent ++ s2l "throw new RagApiException(" ++ [LF]
  ++ argument_lines args ++ indent ++ s2l ");".

(** The arguments [replacement] writes after a description, backslashes
    of the f-string lines included. *)
Definition written_arguments (error_description : str) : list str :=
  [ s2l "'" ++ error_description ++ s2l "' . \$errorMessage"; s2l "\$e->getCode()";
    s2l "\$e"; s2l "null"; s2l "\$errorCode"; s2l "\$errorData" ].

(** * The matcher against the language of a pattern *)

Section MatcherFacts.
Context {R : Type}.
Implicit Types (k : str → option R) (s p : str).

Lemma lit_Some l s s' : lit l s = Some s' ↔ s = l ++ s'.
Proof.
  revert s; induction l as [|a l IH]; intros s; simpl.
  - split; [intros [= ->]|intros ->]; done.
  - destruct s as [|b s]; [split; discriminate|].
    destruct (N.eqb_spec a b) as [->|Hne].
    + rewrite IH. split; [intros ->|intros [= ->]]; done.
    + split; [discriminate|intros [= ? ?]; done].
Qed.

Lemma lit_app l s : lit l (l ++ s) = Some s.
Proof. by apply lit_Some. Qed.

Lemma star_sound a s k x :
  star a s k = Some x → ∃ p s', s = p ++ s' ∧ all_in a p ∧ k s' = Some x.
Proof.
  induction s as [|c s IH]; simpl.
  - intros H. exists [], []. by repeat split; [constructor|].
  - destruct (cmatch a c) eqn:Hc.
    + destruct (star a s k) as [r|] eqn:Hs.
      * intros [= ->]. destruct (IH eq_refl) as (p & s' & -> & Hp & Hk).
        exists (c :: p), s'. repeat split; [by constructor|done].
      * intros H. exists [], (c :: s). by repeat split; [constructor|].
    + intros H. exists [], (c :: s). by repeat split; [constructor|].
Qed.

Lemma star_fallback a s k : is_Some (k s) → is_Some (star a s k).
Proof.
  intros Hk. destruct s as [|c s]; simpl; [done|].
  destruct (cmatch a c); [|done]. by destruct (star a s k).
Qed.

Lemma star_complete a p s k :
  all_in a p → is_Some (k s) → is_Some (star a (p ++ s) k).
Proof.
  intros Hp Hk. induction Hp as [|c p Hc Hp IH]; simpl.
  - by apply star_fallback.
  - rewrite Hc. destruct (star a (p ++ s) k); [done|]. by destruct IH.
Qed.

Lemma lazy_star_sound a s k x :
  lazy_star a s k = Some x → ∃ p s', s = p ++ s' ∧ all_in a p ∧ k s' = Some x.
Proof.
  induction s as [|c s IH]; simpl.
  - destruct (k []) eqn:Hk; [|discriminate].
    intros [= ->]. exists [], []. by repeat split; [constructor|].
  - destruct (k (c :: s)) eqn:Hk.
    + intros [= ->]. exists [], (c :: s). by repeat split; [constructor|].
    + destruct (cmatch a c) eqn:Hc; [|discriminate].
      intros H. destruct (IH H) as (p & s' & -> & Hp & Hk').
      exists (c :: p), s'. repeat split; [by constructor|done].
Qed.

Lemma lazy_star_complete a p s k :
  all_in a p → is_Some (k s) → is_Some (lazy_star a (p ++ s) k).
Proof.
  intros Hp Hk. induction Hp as [|c p Hc Hp IH]; simpl.
  - destruct s; simpl; by destruct Hk as [x ->].
  - destruct (k (c :: p ++ s)); [done|]. by rewrite Hc.
Qed.

(** Soundness: a result of the matcher comes from a text of the language
    of the pattern, followed by a text the continuation accepts. *)
Lemma run_sound r : ∀ s c (k : str → caps → option R) x,
  run r s c k = Some x →
  ∃ p s' c', s = p ++ s' ∧ den r p c c' ∧ k s' c' = Some x.
Proof.
  induction r as [l|a|a|a|a|a|n r IH|r1 IH1 r2 IH2]; intros s c k x; simpl.
  - destruct (lit l s) as [s'|] eqn:Hl; [|discriminate].
    apply lit_Some in Hl as ->. intros Hk. by exists l, s', c.
  - destruct s as [|y s]; [discriminate|].
    destruct (cmatch a y) eqn:Hy; [|discriminate].
    intros Hk. exists [y], s, c. repeat split; eauto.
  - unfold plus. destruct s as [|y s]; [discriminate|].
    destruct (cmatch a y) eqn:Hy; [|discriminate].
    intros H. apply star_sound in H as (p & s' & -> & Hp & Hk).
    exists (y :: p), s', c. repeat split; [done|by constructor|done].
  - intros H. apply star_sound in H as (p & s' & -> & Hp & Hk).
    by exists p, s', c.
  - unfold opt. destruct s as [|y s].
    { intros Hk. exists [], [], c. repeat split; eauto. }
    destruct (cmatch a y) eqn:Hy.
    + destruct (k s c) eqn:Hk.
      * intros [= ->]. exists [y], s, c. repeat split; eauto.
      * intros Hk'. exists [], (y :: s), c. repeat split; eauto.
    + intros Hk'. exists [], (y :: s), c. repeat split; eauto.
  - intros H. apply lazy_star_sound in H as (p & s' & -> & Hp & Hk).
    by exists p, s', c.
  - intros H. apply IH in H as (p & s' & c' & -> & Hp & Hk).
    rewrite length_app, Nat.add_sub, take_app_length in Hk.
    exists p, s', ((n, p) :: c'). repeat split; eauto.
  - intros H. apply IH1 in H as (p1 & s1 & c1 & -> & Hp1 & H).
    apply IH2 in H as (p2 & s2 & c2 & -> & Hp2 & Hk).
    exists (p1 ++ p2), s2, c2. rewrite <- app_assoc. repeat split; eauto 10.
Qed.

(** Completeness: when some text of the language is followed by a text
    the continuation accepts, the matcher finds a result. *)
Lemma run_complete r : ∀ p s c c' (k : str → caps → option R),
  den r p c c' → is_Some (k s c') → is_Some (run r (p ++ s) c k).
Proof.
  induction r as [l|a|a|a|a|a|n r IH|r1 IH1 r2 IH2]; intros p s c c' k; simpl.
  - intros [-> ->] Hk. by rewrite lit_app.
  - intros [(y & -> & Hy) ->] Hk. simpl. by rewrite Hy.
  - intros [[Hne Hp] ->] Hk. unfold plus.
    destruct Hp as [|y p Hy Hp]; [done|]. simpl. rewrite Hy.
    by apply star_complete.
  - intros [Hp ->] Hk. by apply star_complete.
  - intros [Hp ->] Hk. unfold opt. destruct Hp as [->|(y & -> & Hy)]; simpl.
    + destruct s as [|y s]; [done|]. destruct (cmatch a y); [|done].
      by destruct (k s c).
    + rewrite Hy. by destruct (k s c).
  - intros [Hp ->] Hk. by apply lazy_star_complete.
  - intros (c1 & Hp & ->) Hk. eapply IH; [done|].
    by rewrite length_app, Nat.add_sub, take_app_length.
  - intros (p1 & p2 & c1 & -> & Hp1 & Hp2) Hk. rewrite <- app_assoc.
    eapply IH1; [done|]. by eapply IH2.
Qed.
End MatcherFacts.

(** * Matching at a position, searching, substituting *)

Lemma match_here_sound r s m :
  match_here r s = Some m →
  s = m_all m ++ m_rest m ∧ den r (m_all m) [] (m_caps m).
Proof.
  unfold match_here. intros H.
  apply run_sound in H as (p & s' & c' & -> & Hp & [= <-]). simpl.
  by rewrite length_app, Nat.add_sub, take_app_length.
Qed.

Lemma match_here_complete r p s c :
  den r p [] c → is_Some (match_here r (p ++ s)).
Proof. intros Hp. unfold match_here. by eapply run_complete. Qed.

Lemma match_here_None r s :
  (∀ p s' c, s = p ++ s' → ¬ den r p [] c) → match_here r s = None.
Proof.
  intros H. destruct (match_here r s) as [m|] eqn:Hm; [|done].
  apply match_here_sound in Hm as [Hs Hd]. by destruct (H _ _ _ Hs Hd).
Qed.

Lemma search_None r s :
  search r s = None ↔ ∀ t1 t2, s = t1 ++ t2 → match_here r t2 = None.
Proof.
  induction s as [|x s IH]; simpl.
  - destruct (match_here r []) eqn:Hm.
    + split; [discriminate|]. intros H. by rewrite (H [] []) in Hm.
    + split; [|done]. intros _ t1 t2 Ht. symmetry in Ht.
      by apply app_eq_nil in Ht as [-> ->].
  - destruct (match_here r (x :: s)) eqn:Hm.
    + split; [discriminate|]. intros H. by rewrite (H [] (x :: s)) in Hm.
    + rewrite IH. split.
      * intros H [|y t1] t2; simpl; [by intros <-|]. intros [= -> ->]. by eapply H.
      * intros H t1 t2 ->. by apply (H (x :: t1)).
Qed.

Lemma search_Some r s m :
  search r s = Some m → ∃ t, s = t ++ m_all m ++ m_rest m ∧ den r (m_all m) [] (m_caps m).
Proof.
  induction s as [|x s IH]; simpl.
  - destruct (match_here r []) eqn:Hm; [|discriminate].
    intros [= ->]. apply match_here_sound in Hm as [Hs Hd]. by exists [].
  - destruct (match_here r (x :: s)) eqn:Hm.
    + intros [= ->]. apply match_here_sound in Hm as [Hs Hd]. by exists [].
    + intros H. destruct (IH H) as (t & -> & Hd). by exists (x :: t).
Qed.

Section Scan.
Variable r : regex.
Variable repl : rmatch → str.

Lemma sub_go_skip n s :
  (n ≤ length s)%nat → sub_go r repl n s = sub r repl (drop n s).
Proof.
  revert s; induction n as [|n IH]; intros s Hn; [done|].
  destruct s as [|x s]; simpl in *; [lia|]. apply IH. lia.
Qed.

Lemma finditer_go_skip n s :
  (n ≤ length s)%nat → finditer_go r n s = finditer r (drop n s).
Proof.
  revert s; induction n as [|n IH]; intros s Hn; [done|].
  destruct s as [|x s]; simpl in *; [lia|]. apply IH. lia.
Qed.

(** The equations of [sub]: at a match, the replacement and then the
    text after the match; elsewhere, one character is copied. *)
Lemma sub_match s m :
  match_here r s = Some m → m_all m ≠ [] →
  sub r repl s = repl m ++ sub r repl (m_rest m).
Proof.
  intros Hm Hne. destruct (match_here_sound _ _ _ Hm) as [Hs _].
  unfold sub at 1. destruct s as [|x s]; simpl; rewrite Hm.
  { symmetry in Hs. apply app_eq_nil in Hs as [? _]. done. }
  destruct (m_all m) as [|y p] eqn:Hp; [done|]. simpl in *.
  injection Hs as -> ->. rewrite sub_go_skip by (rewrite length_app; lia).
  by rewrite drop_app_length.
Qed.

Lemma sub_nomatch x s :
  match_here r (x :: s) = None → sub r repl (x :: s) = x :: sub r repl s.
Proof. intros Hm. unfold sub. simpl. by rewrite Hm. Qed.

Lemma sub_nil : match_here r [] = None → sub r repl [] = [].
Proof. intros Hm. unfold sub. simpl. by rewrite Hm. Qed.

Lemma finditer_match s m :
  match_here r s = Some m → m_all m ≠ [] →
  finditer r s = m :: finditer r (m_rest m).
Proof.
  intros Hm Hne. destruct (match_here_sound _ _ _ Hm) as [Hs _].
  unfold finditer at 1. destruct s as [|x s]; simpl; rewrite Hm.
  { symmetry in Hs. apply app_eq_nil in Hs as [? _]. done. }
  destruct (m_all m) as [|y p] eqn:Hp; [done|]. simpl in *.
  injection Hs as -> ->. rewrite finditer_go_skip by (rewrite length_app; lia).
  by rewrite drop_app_length.
Qed.

Lemma finditer_nomatch x s :
  match_here r (x :: s) = None → finditer r (x :: s) = finditer r s.
Proof. intros Hm. unfold finditer. simpl. by rewrite Hm. Qed.

Lemma finditer_nil : match_here r [] = None → finditer r [] = [].
Proof. intros Hm. unfold finditer. simpl. by rewrite Hm. Qed.

(** A text in which the pattern matches nowhere is copied whole. *)
Lemma sub_no_match s : search r s = None → sub r repl s = s.
Proof.
  induction s as [|x s IH]; simpl.
  - destruct (match_here r []) eqn:Hm; [discriminate|]. intros _. by apply sub_nil.
  - destruct (match_here r (x :: s)) eqn:Hm; [discriminate|].
    intros H. rewrite sub_nomatch by done. by rewrite IH.
Qed.

Lemma finditer_no_match s : search r s = None → finditer r s = [].
Proof.
  induction s as [|x s IH]; simpl.
  - destruct (match_here r []) eqn:Hm; [discriminate|]. intros _. by apply finditer_nil.
  - destruct (match_here r (x :: s)) eqn:Hm; [discriminate|].
    intros H. rewrite finditer_nomatch by done. by rewrite IH.
Qed.

Lemma sub_quiet t z : quiet r t z → sub r repl (t ++ z) = t ++ sub r repl z.
Proof.
  induction t as [|x t IH]; intros Hq; [done|]. simpl.
  rewrite sub_nomatch by (by apply (Hq [] (x :: t))).
  rewrite IH; [done|]. intros t1 t2 -> Hne. by apply (Hq (x :: t1) t2).
Qed.

Lemma finditer_quiet t z : quiet r t z → finditer r (t ++ z) = finditer r z.
Proof.
  induction t as [|x t IH]; intros Hq; [done|]. simpl.
  rewrite finditer_nomatch by (by apply (Hq [] (x :: t))).
  apply IH. intros t1 t2 -> Hne. by apply (Hq (x :: t1) t2).
Qed.

(** The shape of the result of [sub]: the text up to the first match is
    copied, the match is replaced, and the scan goes on after it. *)
Lemma sub_scan s :
  nonempty r →
  sub r repl s = s ∨
  ∃ u m, s = u ++ m_all m ++ m_rest m
         ∧ match_here r (m_all m ++ m_rest m) = Some m
         ∧ sub r repl s = u ++ repl m ++ sub r repl (m_rest m).
Proof.
  intros Hne. induction s as [|x s IH].
  - destruct (match_here r []) as [m|] eqn:Hm; [|left; by apply sub_nil].
    destruct (match_here_sound _ _ _ Hm) as [Hs Hd].
    apply Hne in Hd. symmetry in Hs. apply app_eq_nil in Hs as [? _]. done.
  - destruct (match_here r (x :: s)) as [m|] eqn:Hm.
    + right. destruct (match_here_sound _ _ _ Hm) as [Hs Hd].
      exists [], m. simpl. rewrite <- Hs. split; [done|]. split; [done|].
      apply sub_match; [done|]. by eapply Hne.
    + rewrite sub_nomatch by done. destruct IH as [->|(u & m & Hs & Hm' & ->)].
      * by left.
      * right. exists (x :: u), m. by rewrite Hs at 1.
Qed.
End Scan.

(** * Reading a text past a run of characters *)

Lemma skip_app f u s : Forall (λ x, f x = true) u → skip f (u ++ s) = skip f s.
Proof. induction 1 as [|x u Hx _ IH]; simpl; [done|]. by rewrite Hx. Qed.

Lemma free_app x u v : free x u → free x v → free x (u ++ v).
Proof. apply Forall_app_2. Qed.

Lemma free_ws x w : isspace x = false → all_in CSpace w → free x w.
Proof.
  intros Hx Hw. eapply Forall_impl; [exact Hw|]. intros y Hy. simpl in Hy.
  destruct (N.eqb_spec y x) as [->|]; [congruence|done].
Qed.

Lemma free_not x u : all_in (CNot x) u → free x u.
Proof. done. Qed.

(** Reading past a run when a known text comes first. *)
Lemma skip_lit f (l r : str) :
  skip f (l ++ r) = match skip f l with [] => skip f r | k => k ++ r end.
Proof.
  induction l as [|x l IH]; simpl; [done|].
  destruct (f x); [done|]. done.
Qed.

Lemma strip_spec l l' (a b : str) :
  l ++ a = l' ++ b →
  match strip l l' with
  | Clash => False
  | Same => a = b
  | LeftMore k => k ++ a = b
  | RightMore k => a = k ++ b
  end.
Proof.
  revert l'; induction l as [|x l IH]; intros [|y l']; simpl; try done.
  intros [= -> E]. rewrite N.eqb_refl. by apply IH.
Qed.

(** * Proof automation for texts of the patterns *)

Ltac break :=
  repeat match goal with
  | H : ∃ _, _ |- _ => destruct H as [? H]
  | H : _ ∧ _ |- _ => destruct H
  end.

(** Taking the [den] hypotheses apart, down to the statement of the throw
    line, which [den_throw] opens. *)
Ltac den_unfold H :=
  unfold pattern, extraction_line, logger_line, throw_line, error_pattern,
    ws0, ws1, nl, quote_chr in H.

Ltac den_inv :=
  repeat match goal with
  | H : den _ _ _ _ |- _ => progress (den_unfold H; cbn [den] in H); break; subst
  end;
  unfold LF, COMMA, QUOTE in *.

Ltac den_throw :=
  repeat match goal with
  | H : den throw_stmt _ _ _ |- _ =>
      unfold throw_stmt, ws1 in H; cbn [den] in H; break; subst
  end;
  unfold LF, COMMA, QUOTE in *.

Lemma quote_cases q : cmatch (COneOf QUOTE DQUOTE) q = true → q = QUOTE ∨ q = DQUOTE.
Proof.
  simpl. intros H. apply orb_true_iff in H as [H|H]; apply N.eqb_eq in H; auto.
Qed.

Lemma semi_cases (sm : str) :
  (sm = [] ∨ ∃ x, sm = [x] ∧ cmatch (CChr SEMI) x = true) → sm = [] ∨ sm = [SEMI].
Proof.
  intros [->|(x & -> & H)]; [by left|]. right. simpl in H. apply N.eqb_eq in H. by subst.
Qed.

(** Concatenations nested to the right. *)
Ltac flat := rewrite <- ?app_assoc, ?app_nil_l in *.
Ltac flat_in E := rewrite <- ?app_assoc, ?app_nil_l in E.

Lemma free_quote x q : is_quote q → x ≠ 39 → x ≠ 34 → free x [q].
Proof.
  intros [->| ->] H1 H2; (constructor; [|constructor]);
    apply negb_true_iff, N.eqb_neq; done.
Qed.

Lemma free_lit x (l : str) : forallb (λ y, negb (y =? x)) l = true → free x l.
Proof. intros H. apply Forall_forall. intros y Hy. eapply forallb_forall in H; [done|]. by apply list_elem_of_In. Qed.

Ltac solve_free :=
  repeat first
    [ assumption
    | apply free_app
    | apply free_ws; [reflexivity|assumption]
    | apply free_not; assumption
    | apply free_quote; [assumption|done|done]
    | apply free_lit; vm_compute; reflexivity ].

(** Reading past runs, symbolically: a run of the right kind is dropped,
    a known text is read as far as it goes. *)
Ltac sk_in E :=
  repeat match type of E with
  | context [skip ?f (?l ++ ?r)] =>
      first
        [ rewrite (skip_app f l r) in E by (assumption || solve_free)
        | tryif is_var l then fail else
            (let v := eval vm_compute in (skip f l) in
             rewrite (skip_lit f l r) in E;
             change (skip f l) with v in E; cbv beta iota in E) ]
  end.

Ltac sk :=
  repeat match goal with
  | |- context [skip ?f (?l ++ ?r)] =>
      first
        [ rewrite (skip_app f l r) by (assumption || solve_free)
        | tryif is_var l then fail else
            (let v := eval vm_compute in (skip f l) in
             rewrite (skip_lit f l r);
             change (skip f l) with v; cbv beta iota) ]
  end.

Lemma one_app_inj (x y : char) (a b : str) : [x] ++ a = [y] ++ b → x = y ∧ a = b.
Proof. by intros [= -> ->]. Qed.

(** An equation between two texts, consumed from the left: items alike
    are dropped from both sides, a run is read past on both sides, and
    two known texts are compared. *)
Ltac peel_opt a :=
  is_var a;
  match goal with
  | H : a = [] ∨ a = [_] |- _ => destruct H as [-> | ->]
  end.

Ltac peel_run E a :=
  is_var a;
  match goal with
  | _ : all_in CSpace a |- _ =>
      apply (f_equal skipws) in E; unfold skipws in E; sk_in E
  | _ : all_in (CNot 44) a |- _ =>
      apply (f_equal (skip_to 44)) in E; unfold skip_to in E; sk_in E
  end.

Ltac peel_step E :=
  lazymatch type of E with
  | False => destruct E
  | [?x] ++ _ = [?y] ++ _ =>
      first
        [ is_var x; apply one_app_inj in E as [-> E]
        | is_var y; apply one_app_inj in E as [<- E]
        | apply one_app_inj in E as [? E]; try discriminate ]
  | ?a ++ _ = ?b ++ _ =>
      first
        [ peel_opt a
        | peel_opt b
        | peel_run E a
        | peel_run E b
        | apply strip_spec in E;
          match type of E with
          | context [strip ?l ?l'] =>
              let v := eval vm_compute in (strip l l') in
              change (strip l l') with v in E; cbv beta iota in E
          end ]
  end.

Ltac peel E := repeat (peel_step E; try flat_in E).

(** * The texts of the patterns of the script *)

(** ** Their shapes *)

Ltac spaces_inv :=
  repeat match goal with
  | H : spaces _ |- _ => unfold spaces in H
  | H : Forall _ (_ :: _) |- _ => apply Forall_cons_1 in H as [? H]
  | H : Forall _ [] |- _ => clear H
  end.

Lemma extraction_line_shape g c c' :
  den extraction_line g c c' → c' = c ∧ is_extraction_line g.
Proof.
  intros H. den_inv. split; [done|]. unfold is_extraction_line, extraction_text, spaces.
  do 8 eexists. split; [reflexivity|]. repeat constructor; assumption.
Qed.

Lemma logger_line_shape g c c' :
  den logger_line g c c' → c' = c ∧ is_logger_line g.
Proof.
  intros H. den_inv. split; [done|]. unfold is_logger_line, logger_text, spaces.
  do 7 eexists. split; [reflexivity|].
  repeat split; try assumption; try (by apply quote_cases).
  repeat constructor; assumption.
Qed.

Lemma throw_stmt_shape t c c' :
  den throw_stmt t c c' → c' = c ∧ is_throw_stmt t.
Proof.
  intros H. den_throw. split; [done|]. unfold is_throw_stmt, throw_stmt_text, spaces.
  do 5 eexists. split; [reflexivity|]. repeat split; try assumption.
  repeat constructor; assumption.
Qed.

Lemma error_pattern_shape p c c' :
  den error_pattern p c c' → ∃ d, c' = (1%nat, d) :: c ∧ is_error_text p d.
Proof.
  intros H. den_inv. unfold is_error_text, error_text, spaces.
  eexists. split; [reflexivity|]. do 2 eexists. split; [reflexivity|].
  repeat split; try assumption. repeat constructor; assumption.
Qed.

(** A text of the pattern: the three lines, what is between them, and the
    groups. *)
Lemma pattern_shape p c :
  den pattern p [] c →
  ∃ g1 w1 g2 sm w2 c1 t,
    p = g1 ++ w1 ++ [LF] ++ g2 ++ s2l "]" ++ sm ++ w2 ++ [LF] ++ (c1 ++ t) ++ s2l ";"
    ∧ c = [(3%nat, c1 ++ t); (2%nat, g2); (1%nat, g1)]
    ∧ is_extraction_line g1 ∧ is_logger_line g2 ∧ is_throw_stmt t
    ∧ spaces [w1; w2; c1] ∧ c1 ≠ []
    ∧ (sm = [] ∨ sm = [SEMI]).
Proof.
  unfold pattern, throw_line, ws0, ws1, nl. cbn [den]. intros H. break. subst.
  repeat match goal with
  | H : den extraction_line _ _ _ |- _ => apply extraction_line_shape in H as [? H]
  | H : den logger_line _ _ _ |- _ => apply logger_line_shape in H as [? H]
  | H : den throw_stmt _ _ _ |- _ => apply throw_stmt_shape in H as [? H]
  | H : _ = [] ∨ (∃ _, _) |- _ => apply semi_cases in H
  end.
  subst.
  do 7 eexists. split; [reflexivity|]. split; [reflexivity|].
  repeat split; try assumption. repeat constructor; assumption.
Qed.

Ltac texts :=
  unfold extraction_text, logger_text, throw_stmt_text, error_text,
    LF, SEMI, QUOTE, DQUOTE, COMMA in *.

Ltac open_line H :=
  first
    [ destruct H as (?a1 & ?a2 & ?a3 & ?a4 & ?a5 & ?a6 & ?a7 & ?a8 & -> & H)
    | destruct H as (?b1 & ?x & ?b2 & ?q1 & ?q2 & ?b3 & ?b4 & -> & H & ?Hx & ?Hxne & ?Hq1 & ?Hq2)
    | destruct H as (?c2 & ?c3 & ?y & ?c4 & ?c5 & -> & H & ?Hy & ?Hyne) ];
  spaces_inv.

Lemma pattern_head p c c' : den pattern p c c' → ∃ t, p = 125 :: t.
Proof.
  intros H. unfold pattern, extraction_line in H. cbn [den] in H.
  destruct H as (p1 & p2 & c1 & -> & (c2 & (p3 & p4 & c3 & -> & [-> _] & _) & _) & _).
  by eexists.
Qed.

Lemma pattern_nonempty : nonempty pattern.
Proof. intros p c c' H. by apply pattern_head in H as [t ->]. Qed.

(** ** A text of the pattern is determined by where it starts *)

(** Two texts of the pattern at the head of the same text are the same
    text, and their throw lines differ at most in the white space they
    start with. *)
Lemma pattern_unique p c p' c' r r' :
  den pattern p [] c → den pattern p' [] c' → p ++ r = p' ++ r' →
  p = p' ∧ r = r' ∧ skipws (group_of c 3) = skipws (group_of c' 3).
Proof.
  intros H H' E.
  apply pattern_shape in H
    as (g1 & w1 & g2 & sm & w2 & c1 & t & -> & -> & Hg1 & Hg2 & Ht & Hw & Hc1 & Hsm).
  apply pattern_shape in H'
    as (g1' & w1' & g2' & sm' & w2' & c1' & t' & -> & -> & Hg1' & Hg2' & Ht' & Hw' & Hc1' & Hsm').
  spaces_inv. cbn [group_of Nat.eqb]. unfold skipws. rewrite !skip_app by done.
  pose proof E as E0.
  open_line Hg1. open_line Hg1'. open_line Hg2. open_line Hg2'.
  texts. flat_in E. peel E.
  all: open_line Ht; open_line Ht'; texts; flat_in E; sk_in E; sk.
  all: pose proof E as E1; peel E; subst r'.
  all: split; [by apply app_inv_tail in E0|split; [done|]].
  all: match goal with |- ?a = ?b =>
         assert (E2 : a ++ s2l ";" ++ r = b ++ s2l ";" ++ r) by (flat; exact E1) end.
  all: by apply app_inv_tail in E2.
Qed.

(** ** The search of the throw line *)

Lemma error_pattern_space x s :
  isspace x = true → match_here error_pattern (x :: s) = None.
Proof.
  intros Hx. unfold match_here, error_pattern. cbn [run].
  change (s2l "throw") with [116; 104; 114; 111; 119]. cbn [lit].
  destruct (N.eqb_spec 116 x) as [<-|]; [discriminate|done].
Qed.

(** The white space a text starts with does not change what the search
    finds in it. *)
Lemma search_skipws s : search error_pattern (skipws s) = search error_pattern s.
Proof.
  induction s as [|x s IH]; [done|]. unfold skipws in *. simpl skip.
  destruct (isspace x) eqn:Hx; [|done].
  rewrite IH. simpl search. by rewrite error_pattern_space.
Qed.

(** ** Where a character occurs *)

Lemma free_or_split x s : free x s ∨ ∃ a b, s = a ++ [x] ++ b ∧ free x a.
Proof.
  induction s as [|y s IH]; [left; constructor|].
  destruct (N.eqb_spec y x) as [->|Hne].
  - right. exists [], s. split; [done|constructor].
  - destruct IH as [IH|(a & b & -> & Ha)].
    + left. constructor; [|done]. by apply negb_true_iff, N.eqb_neq.
    + right. exists (y :: a), b. split; [done|].
      constructor; [|done]. by apply negb_true_iff, N.eqb_neq.
Qed.

Lemma free_has x (s a b : str) : free x s → s = a ++ [x] ++ b → False.
Proof.
  intros H ->. apply Forall_app in H as [_ H]. apply Forall_cons_1 in H as [H _].
  by rewrite N.eqb_refl in H.
Qed.

(** The description the search extracts from a throw line has no comma
    and no quote in it. *)
Lemma description_free c1 t em :
  all_in CSpace c1 → is_throw_stmt t →
  search error_pattern (c1 ++ t) = Some em →
  all_in (CNot 44) (group em 1) ∧ all_in (CNot 39) (group em 1) ∧ group em 1 ≠ [].
Proof.
  intros Hc1 Ht Hs. apply search_Some in Hs as (pre & E & Hd).
  apply error_pattern_shape in Hd as (d & Hc & v1 & v2 & Hp & Hv & Hd & Hne & _ & _).
  destruct em as [p c rest]. simpl in *. subst. cbn [group_of Nat.eqb]. spaces_inv.
  split; [|done].
  open_line Ht.
  destruct (free_or_split 44 (pre ++ s2l "throw" ++ v1 ++ s2l "new" ++ v2
                              ++ s2l "RagApiException('" ++ d)) as [HA|(a & b & EA & Ha)].
  - repeat (apply Forall_app in HA as [_ HA]). exact HA.
  - exfalso.
    apply (f_equal (λ s, s ++ [39] ++ rest)) in EA. cbv beta in EA.
    assert (E' : c1 ++ throw_stmt_text c2 c3 y c4 c5 = a ++ [44] ++ b ++ [39] ++ rest).
    { rewrite E. unfold error_text. flat_in EA. flat. exact EA. }
    clear E EA. texts. flat_in E'.
    apply (f_equal (skip_to 44)) in E'. unfold skip_to in E'. sk_in E'.
    peel_step E'.
    eapply (free_has 39); [|exact E']. solve_free.
Qed.

Lemma occ_skip_free x (u r t1 t2 : str) :
  free x u → u ++ r = t1 ++ [x] ++ t2 → ∃ t1', r = t1' ++ [x] ++ t2.
Proof.
  revert t1. induction u as [|y u IH]; intros t1 Hf E; simpl in *; [by exists t1|].
  apply Forall_cons_1 in Hf as [Hy Hf].
  destruct t1 as [|y' t1]; simpl in E; injection E as -> E.
  - by rewrite N.eqb_refl in Hy.
  - by eapply IH.
Qed.

Lemma occ_var x (u r t1 t2 : str) :
  u ++ r = t1 ++ [x] ++ t2 →
  (∃ a b, u = a ++ [x] ++ b ∧ t2 = b ++ r) ∨ (∃ t1', r = t1' ++ [x] ++ t2).
Proof.
  revert t1. induction u as [|y u IH]; intros t1 E; simpl in *; [right; by exists t1|].
  destruct t1 as [|y' t1]; simpl in E; injection E as -> E.
  - left. by exists [], u.
  - destruct (IH _ E) as [(a & b & -> & ->)|[t1' ->]].
    + left. by exists (y' :: a), b.
    + right. by exists t1'.
Qed.

(** The occurrences of a character in a text, from left to right. *)
Ltac occ_step Et :=
  lazymatch type of Et with
  | ?u ++ ?r = ?t1 ++ [?x] ++ ?t2 =>
      first
        [ let t := fresh "t" in
          apply (occ_skip_free x u r) in Et as [t Et]; [|solve_free; fail]
        | let t := fresh "t" in
          let a := fresh "a" in
          let b := fresh "b" in
          let Ea := fresh "Ea" in
          let Eb := fresh "Eb" in
          apply (occ_var x u r) in Et as [(a & b & Ea & Eb)|[t Et]] ]
  end.

Lemma single_occ (x : char) (a b : str) : [x] = a ++ [x] ++ b → a = [] ∧ b = [].
Proof.
  destruct a as [|y a]; simpl; [by intros [= <-]|].
  intros [= -> E]. by destruct (app_cons_not_nil _ _ _ E).
Qed.

(** ** No match starts inside a block that was rewritten *)

Lemma new_block_quiet g1 b1 x b2 q1 q2 b3 b4 d z :
  is_extraction_line g1 → spaces [b1; b2; b3; b4] → all_in (CNot 44) x →
  is_quote q1 → is_quote q2 → all_in (CNot 44) d →
  quiet pattern (new_block indent g1 (logger_text b1 x b2 q1 q2 b3 b4) d) z.
Proof.
  intros Hg1 Hb Hx Hq1 Hq2 Hd t1 t2 Et Hne.
  apply match_here_None. intros p' s' c' E' Hd'.
  destruct (pattern_head _ _ _ Hd') as [tp Hp].
  destruct t2 as [|h t2]; [done|]. clear Hne.
  assert (h = 125) as -> by (rewrite Hp in E'; by injection E'). clear tp Hp.
  change (125 :: t2) with ([125] ++ t2) in *.
  open_line Hg1. spaces_inv. unfold new_block in Et. texts.
  rewrite <- (app_nil_r (s2l ");")) in Et. flat_in Et.
  repeat occ_step Et.
  4: by destruct (app_cons_not_nil _ _ _ Et).
  all: subst t2.
  all: apply pattern_shape in Hd'
    as (g1' & w1' & g2' & sm' & w2' & c1' & t' & -> & -> & Hg1' & Hg2' & Ht' & Hw' & Hc1' & Hsm').
  all: open_line Hg1'; open_line Hg2'; open_line Ht'; spaces_inv; texts.
  - apply (single_occ 125) in Ea as [-> ->]. flat_in E'. peel E'.
  - subst x. unfold all_in in Hx.
    apply Forall_app in Hx as [_ Hx]. apply Forall_app in Hx as [_ Hx]. fold (all_in (CNot 44) b) in Hx.
    flat_in E'. peel E'.
  - subst d. unfold all_in in Hd.
    apply Forall_app in Hd as [_ Hd]. apply Forall_app in Hd as [_ Hd]. fold (all_in (CNot 44) b) in Hd.
    flat_in E'. peel E'.
Qed.

(** ** No match appears where there was none *)

(** A match at the head of the rewritten text comes from a match at the
    head of the text. *)
Lemma update_match_back s :
  is_Some (match_here pattern (update_catch_blocks s)) → is_Some (match_here pattern s).
Proof.
  unfold update_catch_blocks.
  destruct (sub_scan pattern replacement s pattern_nonempty) as [-> | (u & m & Es & Hm & ->)]; [done|].
  intros [m' Hm']. apply match_here_sound in Hm' as [E' Hd'].
  destruct m as [g0 caps rest], m' as [p' c' r']; cbn [m_all m_rest m_caps] in *.
  set (z := sub pattern replacement rest) in *. clearbody z.
  subst s.
  destruct (match_here_sound _ _ _ Hm) as [_ Hd]; cbn [m_all m_rest m_caps] in Hd.
  apply app_eq_app in E' as [k [[Eu Er]|[Ep E2]]].
  { subst u. rewrite <- app_assoc. by eapply match_here_complete. }
  destruct k as [|h l'].
  { rewrite app_nil_r in Ep. subst p'. by eapply match_here_complete. }
  pose proof Hd' as Hd''.
  apply pattern_shape in Hd''
    as (g1' & w1' & g2' & sm' & w2' & c1' & t' & Ep' & _ & Hg1' & Hg2' & Ht' & Hw' & Hc1' & Hsm').
  pose proof Ep as Ep0. rewrite Ep' in Ep.
  apply pattern_shape in Hd
    as (g1 & w1 & g2 & sm & w2 & c1 & t & Eg0 & -> & Hg1 & Hg2 & Ht & Hw & Hc1 & Hsm).
  unfold replacement in E2. cbn [group group_of m_caps m_all Nat.eqb] in E2.
  open_line Hg1'. open_line Hg2'. open_line Ht'. spaces_inv.
  open_line Hg1. open_line Hg2.
  assert (h = 125) as ->.
  { destruct (search error_pattern (c1 ++ t)); [unfold new_block in E2|subst g0];
      unfold extraction_text in E2; by injection E2. }
  change (125 :: l') with ([125] ++ l') in *.
  assert (Hel : ∀ em, search error_pattern (c1 ++ t) = Some em →
                 all_in (CNot 44) (group_of (m_caps em) 1)).
  { intros em Hs. by apply description_free in Hs as [? _]. }
  destruct Hsm' as [-> | ->].
  all: texts; rewrite <- (app_nil_r (s2l ";")) in Ep; flat_in Ep.
  all: repeat occ_step Ep.
  all: try by destruct (app_cons_not_nil _ _ _ Ep).
  all: try (apply (single_occ 125) in Ea as [-> ->]).
  1, 4: assert (u = []) as ->;
    [ apply (app_inv_tail ([125] ++ l')); rewrite <- Ep0, Ep', Eb; by flat
    | by rewrite app_nil_l, Hm ].
  all: subst l'.
  all: first [subst x|subst y].
  all: match goal with
       | H : all_in (CNot 44) (_ ++ [125] ++ ?b) |- _ =>
           unfold all_in in H; apply Forall_app in H as [_ H];
           apply Forall_app in H as [_ H]; fold (all_in (CNot 44) b) in H
       end.
  all: destruct (search error_pattern (c1 ++ t)) as [em|] eqn:Hs;
         [ specialize (Hel em eq_refl); remember (group_of (m_caps em) 1) as d;
           unfold new_block in E2
         | subst g0; open_line Ht; clear Hm ].
  all: pose proof E2 as E20.
  all: texts; flat_in E2; peel_step E2.
  all: apply (f_equal (skip_to 44)) in E2; unfold skip_to in E2; sk_in E2.
  all: peel E2.
  all: subst r'; apply app_inv_tail in E20.
  all: match goal with
       | Ep0 : ?p = _ |- is_Some (match_here pattern (?u ++ ?G ++ ?rest)) =>
           assert (Eg : u ++ G = p) by (rewrite E20, Ep0; by flat);
           rewrite (app_assoc u G rest), Eg
       end.
  all: by eapply match_here_complete.
Qed.

(** ** Rewriting twice *)

Lemma update_twice_aux n : ∀ s,
  (length s < n)%nat →
  update_catch_blocks (update_catch_blocks s) = update_catch_blocks s
  ∧ Forall (λ m, ¬ eligible m) (finditer pattern (update_catch_blocks s)).
Proof.
  induction n as [|n IH]; intros s Hn; [lia|].
  destruct (match_here pattern s) as [m|] eqn:Hm.
  - pose proof (match_here_sound _ _ _ Hm) as [Es Hd].
    assert (Hne : m_all m ≠ []) by (by eapply pattern_nonempty).
    unfold update_catch_blocks at 2 3 4. rewrite (sub_match _ _ _ _ Hm Hne).
    fold (update_catch_blocks (m_rest m)).
    destruct (IH (m_rest m)) as [IH1 IH2].
    { rewrite Es, length_app in Hn. destruct (m_all m); [done|]. simpl in Hn. lia. }
    set (z := update_catch_blocks (m_rest m)) in *.
    destruct (search error_pattern (group m 3)) as [em|] eqn:Hs.
    + assert (quiet pattern (replacement m) z) as Hq.
      { unfold replacement. rewrite Hs. destruct m as [g0 caps rest].
        cbn [m_all m_caps m_rest group] in *.
        apply pattern_shape in Hd
          as (g1 & w1 & g2 & sm & w2 & c1 & t & _ & -> & Hg1 & Hg2 & Ht & Hw & Hc1 & Hsm).
        cbn [group_of Nat.eqb] in *. spaces_inv.
        apply description_free in Hs as (Hd & _); [|done..].
        destruct Hg2 as (b1 & x & b2 & q1 & q2 & b3 & b4 & -> & Hb & Hx & _ & Hq1 & Hq2).
        by apply new_block_quiet. }
      unfold update_catch_blocks. rewrite (sub_quiet _ _ _ _ Hq), (finditer_quiet _ _ _ Hq).
      split; [f_equal; exact IH1|exact IH2].
    + destruct (match_here_complete pattern (m_all m) z _ Hd) as [m2 Hm2].
      pose proof (match_here_sound _ _ _ Hm2) as [E2 Hd2].
      destruct (pattern_unique _ _ _ _ _ _ Hd2 Hd (eq_sym E2)) as (Ea & Er & Eg).
      assert (Hs2 : search error_pattern (group m2 3) = None).
      { change (group m2 3) with (group_of (m_caps m2) 3).
        rewrite <- search_skipws, Eg, search_skipws. exact Hs. }
      assert (Hr : replacement m = m_all m) by (unfold replacement; by rewrite Hs).
      assert (Hr2 : replacement m2 = m_all m) by (unfold replacement; by rewrite Hs2).
      rewrite Hr. unfold update_catch_blocks.
      rewrite (sub_match _ _ _ _ Hm2), (finditer_match _ _ _ Hm2) by (by rewrite Ea).
      rewrite Hr2, Er. split; [f_equal; exact IH1|].
      constructor; [|exact IH2]. unfold eligible. rewrite Hs2. by intros [? ?].
  - destruct s as [|x s].
    + unfold update_catch_blocks. rewrite !sub_nil by done.
      rewrite finditer_nil by done. by split.
    + destruct (IH s) as [IH1 IH2]; [simpl in Hn; lia|].
      assert (Hu : update_catch_blocks (x :: s) = x :: update_catch_blocks s)
        by (by apply sub_nomatch).
      assert (Hm' : match_here pattern (x :: update_catch_blocks s) = None).
      { destruct (match_here pattern (x :: update_catch_blocks s)) eqn:Hm'; [|done].
        destruct (update_match_back (x :: s)) as [? Hc]; [by rewrite Hu, Hm'|].
        by rewrite Hm in Hc. }
      rewrite Hu. unfold update_catch_blocks at 1.
      rewrite (sub_nomatch _ _ _ _ Hm'), (finditer_nomatch _ _ _ Hm').
      split; [f_equal; exact IH1|exact IH2].
Qed.

(** ** Candidates that are not eligible *)

Lemma upto_app x (u r : str) : free x u → upto x (u ++ [x] ++ r) = u.
Proof.
  induction 1 as [|y u Hy _ IH]; simpl; [by rewrite N.eqb_refl|].
  apply negb_true_iff in Hy. rewrite Hy. by f_equal.
Qed.

Lemma raise_first_argument_shape c1 c2 c3 y c4 c5 :
  spaces [c1; c2; c3; c4; c5] → all_in (CNot 44) y →
  raise_first_argument (c1 ++ throw_stmt_text c2 c3 y c4 c5) = y.
Proof.
  intros Hc Hy. spaces_inv. unfold raise_first_argument, skip_to, LPAREN. texts. sk.
  change ([40] ++ ?r) with (40 :: r). cbn [tail].
  change (s2l ",") with [44]. by apply upto_app.
Qed.

Lemma search_description g :
  is_Some (search error_pattern g) → has_literal_description g.
Proof.
  intros [em Hs]. apply search_Some in Hs as (pre & E & Hd).
  apply error_pattern_shape in Hd as (d & _ & Hd). by exists pre, (m_all em), d, (m_rest em).
Qed.

Lemma no_quote_no_description g : free QUOTE g → ¬ has_literal_description g.
Proof.
  intros Hg (pre & p & d & post & -> & v1 & v2 & -> & _).
  unfold error_text in Hg. change (s2l "RagApiException('") with (s2l "RagApiException(" ++ [QUOTE]) in Hg.
  eapply (free_has QUOTE _ (pre ++ s2l "throw" ++ v1 ++ s2l "new" ++ v2 ++ s2l "RagApiException(")
            (d ++ [QUOTE] ++ post)); [exact Hg|]. by flat.
Qed.

(** The span of a match that is not eligible stays as it is. *)
Lemma ineligible_unchanged s m :
  match_here pattern s = Some m → search error_pattern (group m 3) = None →
  replacement m = group m 0
  ∧ update_catch_blocks s = group m 0 ++ update_catch_blocks (m_rest m).
Proof.
  intros Hm Hs.
  assert (Hr : replacement m = group m 0) by (unfold replacement; by rewrite Hs).
  split; [done|]. unfold update_catch_blocks. rewrite (sub_match _ _ _ _ Hm), Hr; [done|].
  apply match_here_sound in Hm as [_ Hd]. by eapply pattern_nonempty.
Qed.

Lemma no_description_unchanged s m :
  match_here pattern s = Some m →
  ¬ has_literal_description (group m 3) →
  replacement m = group m 0
  ∧ update_catch_blocks s = group m 0 ++ update_catch_blocks (m_rest m).
Proof.
  intros Hm Hn. apply ineligible_unchanged; [done|].
  destruct (search error_pattern (group m 3)) eqn:Hs; [|done].
  destruct Hn. apply search_description. by rewrite Hs.
Qed.

Lemma throw_line_shape s m :
  match_here pattern s = Some m →
  ∃ c1 c2 c3 y c4 c5,
    group m 3 = c1 ++ throw_stmt_text c2 c3 y c4 c5
    ∧ spaces [c1; c2; c3; c4; c5] ∧ all_in (CNot 44) y.
Proof.
  intros Hm. apply match_here_sound in Hm as [_ Hd]. destruct m as [g0 caps rest].
  cbn [m_all m_caps m_rest group] in *.
  apply pattern_shape in Hd
    as (g1 & w1 & g2 & sm & w2 & c1 & t & _ & -> & Hg1 & Hg2 & Ht & Hw & Hc1 & Hsm).
  destruct Ht as (c2 & c3 & y & c4 & c5 & -> & Hc & Hy & _).
  exists c1, c2, c3, y, c4, c5. cbn [group_of Nat.eqb]. spaces_inv.
  repeat split; [|done]. unfold spaces. repeat constructor; assumption.
Qed.

(** ** Candidates with a literal for first argument *)

Lemma search_complete r t1 t2 :
  is_Some (match_here r t2) → is_Some (search r (t1 ++ t2)).
Proof.
  intros H. destruct (search r (t1 ++ t2)) eqn:Hs; [done|].
  rewrite search_None in Hs. rewrite (Hs t1 t2 eq_refl) in H. by destruct H.
Qed.

Lemma first_occ x (a b r r' : str) :
  free x a → free x b → a ++ [x] ++ r = b ++ [x] ++ r' → a = b.
Proof.
  intros Ha. revert b. induction Ha as [|y a Hy Ha IH]; intros b Hb E.
  - destruct Hb as [|z b Hz Hb]; [done|]. simpl in E. injection E as <- _.
    by rewrite N.eqb_refl in Hz.
  - destruct Hb as [|z b Hz Hb]; simpl in E; injection E as -> E.
    + by rewrite N.eqb_refl in Hy.
    + f_equal. by apply IH.
Qed.

(** The description of a raise line whose first argument is a
    single-quoted literal of at least one character is the text between
    the quotes. *)
Lemma literal_description s m d :
  match_here pattern s = Some m →
  raise_first_argument (group m 3) = [QUOTE] ++ d ++ [QUOTE] →
  d ≠ [] → free QUOTE d →
  ∃ em, search error_pattern (group m 3) = Some em ∧ group em 1 = d.
Proof.
  intros Hm Ha Hne Hd.
  apply match_here_sound in Hm as [_ Hden]. destruct m as [g0 caps rest].
  cbn [m_all m_caps m_rest group] in *.
  apply pattern_shape in Hden
    as (g1 & w1 & g2 & sm & w2 & c1 & t & _ & -> & _ & _ & Ht & Hw & Hc1 & _).
  cbn [group_of Nat.eqb] in *. spaces_inv.
  destruct Ht as (c2 & c3 & y & c4 & c5 & -> & Hc & Hy & _ & Hc2 & Hc3).
  rewrite raise_first_argument_shape in Ha
    by (spaces_inv; unfold spaces; repeat constructor; assumption).
  subst y. spaces_inv.
  assert (Hs : is_Some (search error_pattern
                          (c1 ++ throw_stmt_text c2 c3 ([QUOTE] ++ d ++ [QUOTE]) c4 c5))).
  { apply search_complete. unfold throw_stmt_text.
    change (s2l "RagApiException(" ++ ([QUOTE] ++ d ++ [QUOTE]) ++ ?r)
      with (s2l "RagApiException('" ++ (d ++ [QUOTE]) ++ r).
    match goal with
    | |- is_Some (match_here _ ?txt) =>
        replace txt with
          ((s2l "throw" ++ c2 ++ s2l "new" ++ c3 ++ s2l "RagApiException('" ++ d ++ [QUOTE])
           ++ s2l "," ++ c4 ++ s2l "$e->getCode()," ++ c5 ++ s2l "$e)") by (by flat)
    end.
    eapply match_here_complete. unfold error_pattern, ws1. cbn [den].
    repeat first
      [ eexists
      | split; [reflexivity|]
      | split; [split; [reflexivity|reflexivity]|]
      | split; [split; [split; [eassumption|eassumption]|reflexivity]|] ].
    all: first [assumption|exact Hd]. }
  destruct Hs as [em Hs]. exists em. split; [done|].
  apply search_Some in Hs as (pre & E & Hden).
  apply error_pattern_shape in Hden as (d' & Hc' & v1 & v2 & Hp & Hv & Hd' & _).
  destruct em as [p c' post]. cbn [m_all m_caps m_rest group group_of] in *.
  subst c' p. cbn [group_of Nat.eqb].
  assert (∃ A B, B = d' ++ [39] ++ post
            ∧ c1 ++ throw_stmt_text c2 c3 ([QUOTE] ++ d ++ [QUOTE]) c4 c5 = A ++ [39] ++ B)
    as (A & B & EB & E1).
  { exists (pre ++ s2l "throw" ++ v1 ++ s2l "new" ++ v2 ++ s2l "RagApiException("),
      (d' ++ [39] ++ post). split; [done|]. rewrite E. unfold error_text.
    change (s2l "RagApiException('") with (s2l "RagApiException(" ++ [39]). by flat. }
  clear E. texts. rewrite <- (app_nil_r (s2l "$e)")) in E1. flat_in E1.
  fold (all_in (CNot 39) d) in Hd.
  repeat occ_step E1.
  3: by destruct (app_cons_not_nil _ _ _ E1).
  all: apply (single_occ 39) in Ea as [-> ->]; rewrite EB in Eb; clear EB.
  - rewrite app_nil_l in Eb. by eapply (first_occ 39).
  - exfalso. symmetry in Eb. eapply (free_has 39); [|exact Eb]. solve_free.
Qed.

(** The replacement of a candidate whose first argument is a
    single-quoted literal of at least one character: the block built on
    the text between the quotes. *)
Lemma replacement_of_literal s m d :
  match_here pattern s = Some m →
  raise_first_argument (group m 3) = [QUOTE] ++ d ++ [QUOTE] →
  d ≠ [] → free QUOTE d →
  replacement m = new_block indent (group m 1) (group m 2) d.
Proof.
  intros Hm Ha Hne Hd.
  destruct (literal_description _ _ _ Hm Ha Hne Hd) as (em & Hs & <-).
  unfold replacement. by rewrite Hs.
Qed.

(** Every replacement of an eligible candidate ends with a raise statement
    of six arguments, none of which has a comma in it. *)
Lemma replacement_raise_statement s m em :
  match_here pattern s = Some m →
  search error_pattern (group m 3) = Some em →
  (∃ head, replacement m = head ++ raise_statement (written_arguments (group em 1)))
  ∧ length (written_arguments (group em 1)) = 6%nat
  ∧ Forall (free COMMA) (written_arguments (group em 1)).
Proof.
  intros Hm Hs. split; [|split; [done|]].
  - unfold replacement. rewrite Hs. unfold new_block.
    exists (group m 1 ++ [LF]
            ++ indent ++ s2l "$errorData = $this->extractErrorData($e);" ++ [LF]
            ++ indent ++ s2l "$errorCode = $this->extractErrorCode($e);" ++ [LF]
            ++ group m 2 ++ s2l ", 'error_code' => $errorCode];" ++ [LF]).
    unfold raise_statement, written_arguments. cbn [argument_lines]. flat.
    repeat (f_equal; []). done.
  - apply match_here_sound in Hm as [_ Hd]. destruct m as [g0 caps rest].
    cbn [m_all m_caps m_rest group] in *.
    apply pattern_shape in Hd
      as (g1 & w1 & g2 & sm & w2 & c1 & t & _ & -> & _ & _ & Ht & Hw & _).
    cbn [group_of Nat.eqb] in *. spaces_inv.
    apply description_free in Hs as (Hd & _); [|done..].
    unfold written_arguments. repeat constructor; solve_free.
Qed.

(** * Texts inside texts *)

Lemma starts_with_app_l l u r : starts_with l u = true → starts_with l (u ++ r) = true.
Proof.
  revert u; induction l as [|a l IH]; intros [|b u]; simpl; try done.
  intros H. apply andb_true_iff in H as [-> H]. by apply IH.
Qed.

Lemma contains_app_l l u r : contains l u = true → contains l (u ++ r) = true.
Proof.
  induction u as [|b u IH]; simpl.
  - rewrite orb_false_r. destruct l; [|done]. intros _. by destruct r.
  - intros H. apply orb_true_iff in H as [H|H].
    + change (b :: u ++ r) with ((b :: u) ++ r). by rewrite starts_with_app_l.
    + rewrite IH by done. apply orb_true_r.
Qed.

Lemma contains_app_r l u r : contains l r = true → contains l (u ++ r) = true.
Proof.
  intros H. induction u as [|b u IH]; simpl; [done|]. rewrite IH. apply orb_true_r.
Qed.

Lemma starts_with_spec l s : starts_with l s = true ↔ ∃ b, s = l ++ b.
Proof.
  revert s; induction l as [|a l IH]; intros s; simpl.
  - split; [by exists s|done].
  - destruct s as [|c s]; [split; [done|by intros [? ?]]|].
    rewrite andb_true_iff, IH, N.eqb_eq. split.
    + intros [-> [b ->]]. by exists b.
    + intros [b [= -> ->]]. split; [done|by exists b].
Qed.

Lemma contains_spec l s : contains l s = true ↔ ∃ a b, s = a ++ l ++ b.
Proof.
  induction s as [|c s IH]; simpl.
  - rewrite orb_false_r, starts_with_spec. split.
    + intros [b E]. by exists [], b.
    + intros (a & b & E). symmetry in E. apply app_eq_nil in E as [-> E].
      apply app_eq_nil in E as [-> ->]. by exists [].
  - rewrite orb_true_iff, starts_with_spec, IH. split.
    + intros [[b E]|(a & b & ->)]; [by exists [], b|by exists (c :: a), b].
    + intros ([|c' a] & b & E); [left; by exists b|]. injection E as -> ->. right. by exists a, b.
Qed.

Lemma contains_trans l k s : contains l k = true → contains k s = true → contains l s = true.
Proof.
  rewrite !contains_spec. intros (a & b & ->) (a' & b' & ->).
  exists (a' ++ a), (b ++ b'). by rewrite <- !app_assoc.
Qed.

(** A known text in a concatenation: in one of its known parts, or
    further to the right. *)
Ltac has_text :=
  repeat first
    [ apply contains_app_l; vm_compute; reflexivity
    | apply contains_app_r ];
  try (vm_compute; reflexivity).

(** * What a pass changes *)

(** The block written for an eligible candidate is not the candidate:
    after the extraction line, the first text that is not white space is
    [$errorData] in the one and [$this] in the other. *)
Lemma new_block_differs p c d z z' :
  den pattern p [] c →
  new_block indent (group_of c 1) (group_of c 2) d ++ z ≠ p ++ z'.
Proof.
  intros Hd E.
  apply pattern_shape in Hd
    as (g1 & w1 & g2 & sm & w2 & c1 & t & -> & -> & Hg1 & Hg2 & Ht & Hw & Hc1 & Hsm).
  cbn [group_of Nat.eqb] in E. unfold new_block in E. flat_in E.
  apply app_inv_head in E. open_line Hg2. spaces_inv. texts. flat_in E.
  peel E.
Qed.

Lemma replacement_differs s m z z' :
  match_here pattern s = Some m → eligible m → replacement m ++ z ≠ m_all m ++ z'.
Proof.
  intros Hm [em He]. unfold replacement. rewrite He.
  apply match_here_sound in Hm as [_ Hd]. by apply new_block_differs.
Qed.

Lemma new_block_marker i g1 g2 d z : contains marker (new_block i g1 g2 d ++ z) = true.
Proof. unfold new_block. flat. has_text. Qed.

Lemma match_here_len s m :
  match_here pattern s = Some m → (length (m_rest m) < length s)%nat.
Proof.
  intros Hm. destruct (match_here_sound _ _ _ Hm) as [Es Hd].
  apply pattern_nonempty in Hd. rewrite Es, length_app.
  destruct (m_all m); [done|]. simpl. lia.
Qed.

Lemma update_match s m :
  match_here pattern s = Some m →
  update_catch_blocks s = replacement m ++ update_catch_blocks (m_rest m).
Proof.
  intros Hm. apply sub_match; [done|].
  apply match_here_sound in Hm as [_ Hd]. by eapply pattern_nonempty.
Qed.

Lemma candidates_match s m :
  match_here pattern s = Some m → finditer pattern s = m :: finditer pattern (m_rest m).
Proof.
  intros Hm. apply finditer_match; [done|].
  apply match_here_sound in Hm as [_ Hd]. by eapply pattern_nonempty.
Qed.

Lemma rewrites_match s m :
  match_here pattern s = Some m →
  rewrites s = ((if decide (eligible m) then 1 else 0) + rewrites (m_rest m))%nat.
Proof.
  intros Hm. unfold rewrites. rewrite (candidates_match _ _ Hm), filter_cons.
  destruct (decide (eligible m)) as [He|He].
  - rewrite decide_True by (by apply bool_decide_pack). done.
  - rewrite decide_False; [done|]. intros H. by apply bool_decide_unpack in H.
Qed.

Lemma rewrites_nomatch x s :
  match_here pattern (x :: s) = None → rewrites (x :: s) = rewrites s.
Proof. intros Hm. unfold rewrites. by rewrite finditer_nomatch. Qed.

Lemma not_eligible_unchanged m : ¬ eligible m → replacement m = m_all m.
Proof.
  intros He. unfold replacement.
  destruct (search error_pattern (group m 3)) eqn:Hs; [|done]. destruct He. by eexists.
Qed.

(** A pass gives the text back as it is exactly when no candidate is
    eligible; a text it does not give back as it is has the marker. *)
Lemma update_unchanged_aux n : ∀ s, (length s < n)%nat →
  (update_catch_blocks s = s ↔ rewrites s = 0%nat)
  ∧ (update_catch_blocks s = s ∨ contains marker (update_catch_blocks s) = true).
Proof.
  induction n as [|n IH]; intros s Hn; [lia|].
  destruct (match_here pattern s) as [m|] eqn:Hm.
  - pose proof (match_here_sound _ _ _ Hm) as [Es _].
    pose proof (match_here_len _ _ Hm) as Hl.
    destruct (IH (m_rest m)) as [IH1 IH2]; [lia|].
    rewrite (update_match _ _ Hm), (rewrites_match _ _ Hm).
    destruct (decide (eligible m)) as [He|He].
    + split.
      * split; [|done]. intros E. rewrite Es in E.
        by apply (replacement_differs _ _ _ _ Hm He) in E.
      * right. destruct He as [em He]. unfold replacement. rewrite He.
        apply new_block_marker.
    + rewrite (not_eligible_unchanged _ He). split.
      * rewrite Es at 1. rewrite <- IH1. split; [apply app_inv_head|by intros ->].
      * destruct IH2 as [IH2|IH2]; [left; by rewrite IH2, <- Es|right; by apply contains_app_r].
  - destruct s as [|x s]; [by split; [|left]|].
    destruct (IH s) as [IH1 IH2]; [simpl in Hn; lia|].
    assert (Hu : update_catch_blocks (x :: s) = x :: update_catch_blocks s)
      by (by apply sub_nomatch).
    rewrite Hu, (rewrites_nomatch _ _ Hm). split.
    + rewrite <- IH1. split; [by intros [= ->]|by intros ->].
    + destruct IH2 as [IH2|IH2]; [left; by rewrite IH2|right].
      by apply (contains_app_r _ [x]).
Qed.

Lemma update_changes content :
  update_catch_blocks content ≠ content ↔ (0 < rewrites content)%nat.
Proof.
  destruct (update_unchanged_aux (S (length content)) content) as [[H1 H2] _]; [lia|].
  split.
  - intros Hne. destruct (rewrites content); [by destruct Hne; apply H2|lia].
  - intros Hr E. apply H1 in E. lia.
Qed.

Lemma update_marker content :
  update_catch_blocks content ≠ content →
  contains marker (update_catch_blocks content) = true.
Proof.
  intros Hne.
  destruct (update_unchanged_aux (S (length content)) content) as [_ [H|H]]; [lia|done..].
Qed.

Lemma update_twice content :
  update_catch_blocks (update_catch_blocks content) = update_catch_blocks content.
Proof. apply (update_twice_aux (S (length content))). lia. Qed.

(** * Where a match can start *)

Lemma match_here_head x s : x ≠ RBRACE → match_here pattern (x :: s) = None.
Proof.
  intros Hx. apply match_here_None. intros p s' c E Hd.
  apply pattern_head in Hd as [t ->]. injection E as ->. done.
Qed.

Lemma quiet_no_brace pre z : free RBRACE pre → quiet pattern pre z.
Proof.
  intros Hf t1 t2 -> Hne. apply Forall_app in Hf as [_ Hf].
  destruct Hf as [|x t2 Hx _]; [done|]. apply match_here_head.
  intros ->. by rewrite N.eqb_refl in Hx.
Qed.

Lemma free_both a b (u : str) :
  free a u → free b u → Forall (λ c, negb (c =? a) && negb (c =? b) = true) u.
Proof.
  intros Ha Hb. apply Forall_forall. intros c Hc.
  eapply Forall_forall in Ha; [|done]. eapply Forall_forall in Hb; [|done].
  by rewrite Ha, Hb.
Qed.

(** A character that is not white space does not stand before the end of
    the line in a run of white space. *)
Lemma line_end_clash (pre rest w z : str) (c : char) :
  free LF pre → isspace c = false → all_in CSpace w →
  pre ++ [c] ++ rest = w ++ [LF] ++ z → False.
Proof.
  intros Hpre Hc Hw. revert pre Hpre. induction Hw as [|y w Hy Hw IH]; intros pre Hpre E.
  - destruct Hpre as [|x pre Hx _]; simpl in E; injection E as -> _; [done|].
    by rewrite N.eqb_refl in Hx.
  - destruct Hpre as [|x pre Hx Hpre]; simpl in E; injection E as -> E.
    + simpl in Hy. congruence.
    + by apply (IH pre).
Qed.

(** ** A logging call with a further field *)

Lemma quiet_app r (a b z : str) :
  (∀ a1 a2, a = a1 ++ a2 → a2 ≠ [] → match_here r (a2 ++ b ++ z) = None) →
  quiet r b z → quiet r (a ++ b) z.
Proof.
  intros Ha Hb t1 t2 E Hne.
  apply app_eq_app in E as [k [[-> ->]|[-> ->]]].
  - destruct k as [|x k].
    + rewrite app_nil_l. by apply (Hb [] b).
    + rewrite <- app_assoc. by apply (Ha t1 (x :: k)).
  - by apply (Hb k t2).
Qed.

(** The pattern does not match at the head of a text whose logging call
    has a comma after the first field of its mapping. *)
Lemma extra_field_no_match (hx w f1 rest : str) :
  free COMMA hx → all_in CSpace w → free COMMA f1 → free 93 f1 →
  match_here pattern (hx ++ s2l "," ++ w ++ s2l "[" ++ f1 ++ s2l "," ++ rest) = None.
Proof.
  intros Hhx Hw Hf1 Hf1' . apply match_here_None. intros p s' c E Hd.
  apply pattern_shape in Hd
    as (g1 & w1 & g2 & sm & w2 & c1 & t & -> & _ & Hg1 & Hg2 & Ht & Hw' & Hc1 & Hsm).
  open_line Hg1. open_line Hg2. clear Ht. spaces_inv. texts. flat_in E.
  fold (all_in (CNot 44) hx) in Hhx.
  apply (f_equal (skip_to 44)) in E. unfold skip_to in E. sk_in E.
  peel_step E. peel_step E. flat_in E. peel_step E.
  pose proof (free_both 44 93 f1 Hf1 Hf1') as Hf.
  assert (Hb3 : Forall (λ c, negb (c =? 44) && negb (c =? 93) = true) b3)
    by (apply free_both; solve_free).
  assert (Hb4 : Forall (λ c, negb (c =? 44) && negb (c =? 93) = true) b4)
    by (apply free_both; solve_free).
  destruct Hq1 as [-> | ->], Hq2 as [-> | ->]; texts.
  all: apply (f_equal (skip (λ c, negb (c =? 44) && negb (c =? 93)))) in E; sk_in E.
  all: by peel_step E.
Qed.

(** No match starts anywhere in such an occurrence, when no closing brace
    comes after the first argument of its logging call. *)
Lemma extra_field_quiet (hx w f1 tail post : str) :
  free COMMA hx → all_in CSpace w → free COMMA f1 → free 93 f1 →
  free RBRACE f1 → free RBRACE tail →
  quiet pattern (hx ++ s2l "," ++ w ++ s2l "[" ++ f1 ++ s2l "," ++ tail) post.
Proof.
  intros Hhx Hw Hf1 Hf1' Hb1 Hbt. apply quiet_app.
  - intros a1 a2 -> Hne. apply Forall_app in Hhx as [_ Hhx]. flat.
    by apply extra_field_no_match.
  - apply quiet_no_brace. unfold RBRACE. solve_free.
Qed.

(** * Reading and writing files *)

Lemma universal_newlines_free_aux s :
  free CR (universal_newlines s) ∧ ∀ c, free CR (universal_newlines (c :: s)).
Proof.
  induction s as [|d s [IH1 IH2]].
  - split; [constructor|]. intros c. cbn [universal_newlines].
    destruct (c =? CR) eqn:Hc; repeat constructor. by rewrite Hc.
  - split; [apply IH2|]. intros c. cbn [universal_newlines].
    destruct (c =? CR) eqn:Hc.
    + constructor; [done|]. destruct (d =? LF); [exact IH1|apply IH2].
    + constructor; [by rewrite Hc|apply IH2].
Qed.

(** A text that was read has no carriage return. *)
Lemma universal_newlines_free s : free CR (universal_newlines s).
Proof. apply universal_newlines_free_aux. Qed.

(** A text without carriage return is read as it is. *)
Lemma universal_newlines_id s : free CR s → universal_newlines s = s.
Proof.
  induction 1 as [|c s Hc _ IH]; [done|]. cbn [universal_newlines].
  apply negb_true_iff in Hc. by rewrite Hc, IH.
Qed.

Ltac free_part H :=
  unfold free in *; rewrite ?Forall_app in H; rewrite ?Forall_app; tauto.

Lemma replacement_free_CR s m :
  match_here pattern s = Some m → free CR s →
  free CR (replacement m) ∧ free CR (m_rest m).
Proof.
  intros Hm Hs. apply match_here_sound in Hm as [-> Hd].
  apply Forall_app in Hs as [Ha Hr]. split; [|done].
  unfold replacement. destruct (search error_pattern (group m 3)) as [em|] eqn:He; [|done].
  destruct m as [g0 caps rest]. cbn [m_all m_caps m_rest group] in *.
  apply pattern_shape in Hd
    as (g1 & w1 & g2 & sm & w2 & c1 & t & -> & -> & _).
  cbn [group_of Nat.eqb] in *.
  assert (Hg1 : free CR g1) by free_part Ha.
  assert (Hg2 : free CR g2) by free_part Ha.
  assert (Hg3 : free CR (c1 ++ t)) by free_part Ha.
  apply search_Some in He as (pre & E & Hden).
  apply error_pattern_shape in Hden as (d & Hc & v1 & v2 & Hp & _).
  destruct em as [p c post]. cbn [m_all m_caps m_rest group group_of] in *. subst c p.
  cbn [group_of Nat.eqb]. rewrite E in Hg3. unfold error_text in Hg3.
  assert (Hdf : free CR d) by free_part Hg3.
  unfold new_block, CR in *. solve_free.
Qed.

Lemma update_free_CR_aux n : ∀ s, (length s < n)%nat →
  free CR s → free CR (update_catch_blocks s).
Proof.
  induction n as [|n IH]; intros s Hn Hs; [lia|].
  destruct (match_here pattern s) as [m|] eqn:Hm.
  - rewrite (update_match _ _ Hm).
    destruct (replacement_free_CR _ _ Hm Hs) as [Hr Hrest].
    apply free_app; [done|]. apply IH; [|done].
    pose proof (match_here_len _ _ Hm). lia.
  - destruct s as [|x s]; [done|].
    rewrite (sub_nomatch pattern replacement x s Hm : update_catch_blocks (x :: s) = _).
    apply Forall_cons_1 in Hs as [Hx Hs]. constructor; [done|].
    apply IH; [simpl in Hn; lia|done].
Qed.

(** [update_catch_blocks] puts no carriage return in a text that has
    none. *)
Lemma update_free_CR s : free CR s → free CR (update_catch_blocks s).
Proof. apply (update_free_CR_aux (S (length s))). lia. Qed.

(** What was written is read back as it is. *)
Lemma read_back raw :
  universal_newlines (update_catch_blocks (universal_newlines raw))
  = update_catch_blocks (universal_newlines raw).
Proof. apply universal_newlines_id, update_free_CR, universal_newlines_free. Qed.

(** What is written is not what was stored. *)
Lemma written_differs raw :
  update_catch_blocks (universal_newlines raw) ≠ universal_newlines raw →
  update_catch_blocks (universal_newlines raw) ≠ raw.
Proof.
  intros Hne E. apply Hne. rewrite <- E at 2.
  symmetry. apply universal_newlines_id. rewrite <- E.
  apply update_free_CR, universal_newlines_free.
Qed.

(** * [process_file] and the files *)

Lemma read_text_Some fs filepath content :
  read_text fs filepath = Some content
  ↔ ∃ f, fs !! filepath = Some f ∧ content = universal_newlines (f_data f).
Proof.
  unfold read_text. destruct (fs !! filepath) as [f|].
  - split; [intros [= <-]; by exists f|intros (g & [= <-] & ->); done].
  - split; [done|by intros (g & ? & _)].
Qed.

Lemma read_text_None fs filepath : read_text fs filepath = None ↔ fs !! filepath = None.
Proof. unfold read_text. by destruct (fs !! filepath). Qed.

(** What a call of [process_file] comes to: an error for a file that
    cannot be opened; for a file that is there, either nothing is
    written, or the file can be written and its content is replaced by a
    different one. *)
Lemma process_file_cases fs filepath :
  match fs !! filepath with
  | None => process_file fs filepath = Outcome fs [Processing filepath; ErrorReport] false
  | Some f =>
      (o_files (process_file fs filepath) = fs
       ∧ o_result (process_file fs filepath) = false
       ∧ ¬ In UpdatedSuccessfully (o_printed (process_file fs filepath)))
      ∨ (f_writable f = true
         ∧ update_catch_blocks (universal_newlines (f_data f)) ≠ universal_newlines (f_data f)
         ∧ o_files (process_file fs filepath)
           = <[filepath := File (update_catch_blocks (universal_newlines (f_data f))) true]> fs
         ∧ o_result (process_file fs filepath) = true
         ∧ In UpdatedSuccessfully (o_printed (process_file fs filepath)))
  end.
Proof.
  unfold process_file, read_text, write_text.
  destruct (fs !! filepath) as [f|]; [|done].
  set (content := universal_newlines (f_data f)).
  destruct (contains marker content); [destruct (needs_update content)|].
  - left. cbn. repeat split. intros [?|[?|[]]]; discriminate.
  - destruct (decide _) as [E|E]; [|destruct (f_writable f)]; cbn.
    + left. repeat split. intros [?|[?|[?|[]]]]; discriminate.
    + right. repeat split; auto.
    + left. repeat split. intros [?|[?|[?|[]]]]; discriminate.
  - destruct (decide _) as [E|E]; [|destruct (f_writable f)]; cbn.
    + left. repeat split. intros [?|[?|[]]]; discriminate.
    + right. repeat split; auto.
    + left. repeat split. intros [?|[?|[]]]; discriminate.
Qed.

Lemma insert_changes (fs : files) filepath (f f' : file) :
  fs !! filepath = Some f → f' ≠ f → <[filepath := f']> fs ≠ fs.
Proof.
  intros Hf Hne E. apply (f_equal (λ m, m !! filepath)) in E.
  rewrite lookup_insert_eq, Hf in E. congruence.
Qed.

Lemma written_changes (fs : files) filepath f :
  fs !! filepath = Some f →
  update_catch_blocks (universal_newlines (f_data f)) ≠ universal_newlines (f_data f) →
  <[filepath := File (update_catch_blocks (universal_newlines (f_data f))) true]> fs ≠ fs.
Proof.
  intros Hf Hne. eapply insert_changes; [done|]. destruct f as [raw w]. cbn in *.
  intros [= E _]. by apply written_differs in Hne.
Qed.

Lemma process_file_frame fs filepath :
  dom (o_files (process_file fs filepath)) = dom fs
  ∧ ∀ other, other ≠ filepath → o_files (process_file fs filepath) !! other = fs !! other.
Proof.
  pose proof (process_file_cases fs filepath) as H.
  destruct (fs !! filepath) as [f|] eqn:Hf.
  - destruct H as [(-> & _)|(_ & _ & -> & _)]; [done|]. split.
    + apply dom_insert_lookup_L. by rewrite Hf.
    + intros other Hne. by rewrite lookup_insert_ne.
  - by rewrite H.
Qed.

(** A file whose content comes back from [update_catch_blocks] as it is
    is left alone. *)
Lemma process_file_fixed fs filepath content :
  read_text fs filepath = Some content → update_catch_blocks content = content →
  o_files (process_file fs filepath) = fs ∧ o_result (process_file fs filepath) = false.
Proof.
  intros Hr Hu. apply read_text_Some in Hr as (f & Hf & ->).
  pose proof (process_file_cases fs filepath) as H. rewrite Hf in H.
  destruct H as [(E1 & E2 & _)|(_ & Hne & _)]; done.
Qed.

(** What [process_file] does to a file depends on that file only. *)
Lemma process_file_local fs fs' filepath :
  fs !! filepath = fs' !! filepath →
  o_result (process_file fs filepath) = o_result (process_file fs' filepath)
  ∧ o_printed (process_file fs filepath) = o_printed (process_file fs' filepath)
  ∧ (o_files (process_file fs filepath) = fs ↔ o_files (process_file fs' filepath) = fs')
  ∧ o_files (process_file fs filepath) !! filepath
    = o_files (process_file fs' filepath) !! filepath.
Proof.
  intros E. pose proof (process_file_cases fs filepath) as H.
  pose proof (process_file_cases fs' filepath) as H'.
  unfold process_file, read_text, write_text in *. rewrite <- E in *.
  destruct (fs !! filepath) as [f|] eqn:Hf; [|cbn; by rewrite <- E].
  set (content := universal_newlines (f_data f)) in *.
  destruct (contains marker content); [destruct (needs_update content)|].
  2, 3: destruct (decide _) as [Eu|Eu]; [|destruct (f_writable f)].
  all: cbn; repeat split; try done; rewrite ?lookup_insert_eq; try congruence.
  all: intros Hi; exfalso; eapply written_changes; [| |exact Hi]; done.
Qed.

(** After a call of [process_file], a second call on the same file finds
    nothing to write. *)
Lemma process_file_settles fs filepath : settled (o_files (process_file fs filepath)) filepath.
Proof.
  unfold settled. pose proof (process_file_cases fs filepath) as H.
  destruct (fs !! filepath) as [f|] eqn:Hf.
  - destruct H as [(E1 & E2 & _)|(_ & Hne & E1 & _)]; rewrite E1.
    + by rewrite E1, E2.
    + eapply process_file_fixed.
      * unfold read_text. rewrite lookup_insert_eq. cbn [f_data]. by rewrite read_back.
      * apply update_twice.
  - rewrite H. cbn. unfold process_file, read_text. by rewrite Hf.
Qed.

(** * The properties *)

Example update_doc_foo : update_catch_blocks doc_foo = doc_foo_updated.
Proof. vm_compute. reflexivity. Qed.

(** C1 (counterexample): the candidate of [doc_foo] is captured at an
    indentation of eight spaces, and its replacement is not the block
    built with that indentation. *)
Lemma C1_captured_indent_not_used :
  search pattern doc_foo = Some m_foo
  ∧ search error_pattern (group m_foo 3) = Some em_foo
  ∧ captured_indent m_foo = s2l "        "
  ∧ replacement m_foo
    ≠ new_block (captured_indent m_foo) (group m_foo 1) (group m_foo 2) (group em_foo 1).
Proof.
  split; [vm_compute; reflexivity|]. split; [vm_compute; reflexivity|].
  split; [vm_compute; reflexivity|]. by vm_compute.
Qed.

(** C1 (as amended): the lines of a replacement.  The extraction line and
    the logging line are the texts captured from the document, with the
    indentation they have there; every line the replacement adds starts
    with the same twelve spaces, and the lines of the arguments of the
    raise statement with sixteen, whatever the indentation of the
    occurrence. *)
Theorem C1_new_lines_fixed_indent s m em :
  match_here pattern s = Some m →
  search error_pattern (group m 3) = Some em →
  replacement m
  = join_lines
      ([group m 1]
       ++ map (app (repeat 32 12)) added_statements
       ++ [group m 2 ++ s2l ", 'error_code' => $errorCode];"]
       ++ [repeat 32 12 ++ s2l "throw new RagApiException("]
       ++ map (app (repeat 32 16)) (raise_argument_lines (group em 1))
       ++ [repeat 32 12 ++ s2l ");"])
  ∧ Forall (λ l, take_ws (repeat 32 12 ++ l) = repeat 32 12)
      (added_statements ++ [s2l "throw new RagApiException("; s2l ");"])
  ∧ Forall (λ l, take_ws (repeat 32 16 ++ l) = repeat 32 16)
      (raise_argument_lines (group em 1))
  ∧ ∃ w tl, s = group m 1 ++ w ++ [LF] ++ group m 2 ++ tl ∧ all_in CSpace w.
Proof.
  intros Hm Hs. split; [|split; [|split]].
  - unfold replacement. rewrite Hs. unfold new_block, added_statements, raise_argument_lines.
    cbn [map join_lines app]. flat.
    change (repeat 32 12) with indent. change (repeat 32 16) with (indent ++ s2l "    ").
    flat. repeat (f_equal; []). done.
  - unfold added_statements. repeat constructor.
  - unfold raise_argument_lines. repeat constructor.
  - apply match_here_sound in Hm as [-> Hd]. destruct m as [g0 caps rest].
    cbn [m_all m_caps m_rest group] in *.
    apply pattern_shape in Hd
      as (g1 & w1 & g2 & sm & w2 & c1 & t & -> & -> & _ & _ & _ & Hw & _).
    cbn [group_of Nat.eqb]. spaces_inv. eexists w1, _. split; [by flat|done].
Qed.

Lemma C1_new_lines_fixed_indent_witness :
  match_here pattern block_foo = Some m_foo
  ∧ search error_pattern (group m_foo 3) = Some em_foo
  ∧ captured_indent m_foo = s2l "        "
  ∧ replacement m_foo
    = join_lines
        ([group m_foo 1]
         ++ map (app (repeat 32 12)) added_statements
         ++ [group m_foo 2 ++ s2l ", 'error_code' => $errorCode];"]
         ++ [repeat 32 12 ++ s2l "throw new RagApiException("]
         ++ map (app (repeat 32 16)) (raise_argument_lines (group em_foo 1))
         ++ [repeat 32 12 ++ s2l ");"]).
Proof.
  assert (H1 : match_here pattern block_foo = Some m_foo) by (vm_compute; reflexivity).
  assert (H2 : search error_pattern (group m_foo 3) = Some em_foo)
    by (vm_compute; reflexivity).
  split; [exact H1|]. split; [exact H2|]. split; [vm_compute; reflexivity|].
  exact (proj1 (C1_new_lines_fixed_indent block_foo m_foo em_foo H1 H2)).
Defined.

(** C2: rewriting a text twice gives what rewriting it once gives, and
    none of the candidates the second pass finds is eligible. *)
Theorem C2_update_twice content :
  update_catch_blocks (update_catch_blocks content) = update_catch_blocks content
  ∧ Forall (λ m, ¬ eligible m) (finditer pattern (update_catch_blocks content)).
Proof. apply (update_twice_aux (S (length content))). lia. Qed.

(** C3 (the code at the failing input): the raise line of [block_foo] has
    the literal ['Foo failed: '] for first argument, and the first
    argument of the raise statement written for it has a backslash
    before the dollar sign: it is not the text the specification gives.
    By [replacement_of_literal] the same holds for every candidate with
    that literal. *)
Theorem C3_first_argument_has_backslash :
  match_here pattern block_foo = Some m_foo
  ∧ raise_first_argument (group m_foo 3) = s2l "'Foo failed: '"
  ∧ nth 0 (raise_arguments (replacement m_foo)) [] = s2l "'Foo failed: ' . \$errorMessage"
  ∧ nth 0 (raise_arguments (replacement m_foo)) [] ≠ s2l "'Foo failed: ' . $errorMessage".
Proof.
  split; [vm_compute; reflexivity|]. split; [vm_compute; reflexivity|].
  split; [vm_compute; reflexivity|]. by vm_compute.
Qed.

(** C4 (counterexample): the first argument of the raise line of
    [block_concat] is not a single-quoted literal, and the span is not
    substituted back unchanged. *)
Lemma C4_literal_prefix_rewritten :
  match_here pattern block_concat = Some m_concat
  ∧ raise_first_argument (group m_concat 3) = s2l "'Foo: ' . $id"
  ∧ ¬ single_quoted (raise_first_argument (group m_concat 3))
  ∧ replacement m_concat ≠ group m_concat 0.
Proof.
  split; [vm_compute; reflexivity|]. split; [vm_compute; reflexivity|].
  split; [|by vm_compute].
  intros (d & E & Hd). vm_compute in E.
  do 8 (destruct d as [|? d]; [discriminate|]; injection E as <- E).
  vm_compute in Hd. repeat (apply Forall_cons_1 in Hd as [? Hd]). done.
Qed.

(** C4 (as amended): a matched span whose raise line has no description
    to extract is substituted back unchanged. *)
Theorem C4_no_description_unchanged s m :
  match_here pattern s = Some m →
  ¬ has_literal_description (group m 3) →
  replacement m = group m 0
  ∧ update_catch_blocks s = group m 0 ++ update_catch_blocks (m_rest m).
Proof. apply no_description_unchanged. Qed.

Lemma C4_no_description_unchanged_witness :
  match_here pattern block_var = Some m_var
  ∧ ¬ has_literal_description (group m_var 3)
  ∧ replacement m_var = group m_var 0
  ∧ update_catch_blocks block_var = group m_var 0 ++ update_catch_blocks (m_rest m_var).
Proof.
  assert (H1 : match_here pattern block_var = Some m_var) by (vm_compute; reflexivity).
  assert (H2 : ¬ has_literal_description (group m_var 3)).
  { apply no_quote_no_description, free_lit. vm_compute. reflexivity. }
  split; [exact H1|]. split; [exact H2|].
  exact (C4_no_description_unchanged block_var m_var H1 H2).
Defined.

(** C5 (the code at the failing input): the raise statement written for
    [block_foo] has six arguments in the order the specification gives,
    five of them with a backslash before the dollar sign: the second is
    not the code accessor of the caught error, and so on.  By
    [replacement_raise_statement] the six arguments, their order and
    their backslashes are the same for every eligible candidate. *)
Theorem C5_six_arguments_with_backslashes :
  raise_arguments (replacement m_foo)
  = [ s2l "'Foo failed: ' . \$errorMessage"; s2l "\$e->getCode()"; s2l "\$e";
      s2l "null"; s2l "\$errorCode"; s2l "\$errorData" ]
  ∧ raise_arguments (replacement m_foo)
    ≠ [ s2l "'Foo failed: ' . $errorMessage"; s2l "$e->getCode()"; s2l "$e";
        s2l "null"; s2l "$errorCode"; s2l "$errorData" ].
Proof. split; [vm_compute; reflexivity|by vm_compute]. Qed.

(** C6: an occurrence whose logging call has a further field in its
    mapping (a comma comes before the mapping is closed) is not matched,
    and it is left as it is.  [hx] is the text up to the end of the first
    argument of the call, [f1] the first field, [tail] the rest of the
    occurrence and [post] what follows it: with no closing brace after
    the first argument of the call, no candidate is found in the
    occurrence, and [update_catch_blocks] copies it and goes on after
    it. *)
Theorem C6_extra_field_not_matched (hx w f1 rest : str) :
  free COMMA hx → all_in CSpace w → free COMMA f1 → free 93 f1 →
  match_here pattern (hx ++ s2l "," ++ w ++ s2l "[" ++ f1 ++ s2l "," ++ rest) = None
  ∧ ∀ tail post, rest = tail ++ post → free RBRACE f1 → free RBRACE tail →
      update_catch_blocks (hx ++ s2l "," ++ w ++ s2l "[" ++ f1 ++ s2l "," ++ rest)
      = hx ++ s2l "," ++ w ++ s2l "[" ++ f1 ++ s2l "," ++ tail ++ update_catch_blocks post
      ∧ finditer pattern (hx ++ s2l "," ++ w ++ s2l "[" ++ f1 ++ s2l "," ++ rest)
        = finditer pattern post.
Proof.
  intros Hhx Hw Hf1 Hf1'. split; [by apply extra_field_no_match|].
  intros tail post -> Hb1 Hbt.
  pose proof (extra_field_quiet hx w f1 tail post Hhx Hw Hf1 Hf1' Hb1 Hbt) as Hq.
  pose proof (sub_quiet pattern replacement _ _ Hq) as E1.
  pose proof (finditer_quiet pattern _ _ Hq) as E2.
  fold (update_catch_blocks post) in E1. unfold update_catch_blocks at 1.
  flat_in E1. flat_in E2. by rewrite E1, E2.
Qed.

Lemma C6_extra_field_not_matched_witness :
  free COMMA logger_call_head
  ∧ all_in CSpace (s2l " ")
  ∧ free COMMA (s2l "'error' => $errorMessage")
  ∧ free 93 (s2l "'error' => $errorMessage")
  ∧ free RBRACE (s2l "'error' => $errorMessage")
  ∧ free RBRACE block_extra_fields
  ∧ block_extra
    = logger_call_head ++ s2l "," ++ s2l " " ++ s2l "[" ++ s2l "'error' => $errorMessage"
      ++ s2l "," ++ block_extra_fields ++ block_closing
  ∧ match_here pattern block_extra = None
  ∧ update_catch_blocks block_extra
    = logger_call_head ++ s2l "," ++ s2l " " ++ s2l "[" ++ s2l "'error' => $errorMessage"
      ++ s2l "," ++ block_extra_fields ++ update_catch_blocks block_closing
  ∧ update_catch_blocks block_extra = block_extra.
Proof.
  assert (H1 : free COMMA logger_call_head) by (apply free_lit; vm_compute; reflexivity).
  assert (H2 : all_in CSpace (s2l " ")) by (repeat constructor).
  assert (H3 : free COMMA (s2l "'error' => $errorMessage"))
    by (apply free_lit; vm_compute; reflexivity).
  assert (H4 : free 93 (s2l "'error' => $errorMessage"))
    by (apply free_lit; vm_compute; reflexivity).
  assert (H5 : free RBRACE (s2l "'error' => $errorMessage"))
    by (apply free_lit; vm_compute; reflexivity).
  assert (H6 : free RBRACE block_extra_fields) by (apply free_lit; vm_compute; reflexivity).
  assert (H7 : block_extra
    = logger_call_head ++ s2l "," ++ s2l " " ++ s2l "[" ++ s2l "'error' => $errorMessage"
      ++ s2l "," ++ block_extra_fields ++ block_closing) by (vm_compute; reflexivity).
  split; [exact H1|]. split; [exact H2|]. split; [exact H3|]. split; [exact H4|].
  split; [exact H5|]. split; [exact H6|]. split; [exact H7|].
  destruct (C6_extra_field_not_matched _ _ _ (block_extra_fields ++ block_closing)
              H1 H2 H3 H4) as [Ha Hb].
  destruct (Hb block_extra_fields block_closing eq_refl H5 H6) as [Hc _].
  split; [rewrite H7; exact Ha|]. split; [rewrite H7; exact Hc|vm_compute; reflexivity].
Defined.

(** C7 (counterexample): the empty file has no occurrence of the idiom at
    all and nothing pending, and it is not reported as fully updated: the
    check does not run, and the report is that no changes were made.
    [doc_closed_call] has the marker and no candidate, and the check
    reports one block still to update. *)
Lemma C7_empty_file_not_fully_updated :
  (finditer pattern [] = [] ∧ findall gate_pattern [] = [] ∧ needs_update [] = 0%nat
   ∧ o_printed (process_file {[ a_php := File [] true ]} a_php)
     = [Processing a_php; NoChangesMade]
   ∧ ¬ In AlreadyFullyUpdated (o_printed (process_file {[ a_php := File [] true ]} a_php)))
  ∧ (finditer pattern doc_closed_call = [] ∧ contains marker doc_closed_call = true
     ∧ o_printed (process_file {[ a_php := File doc_closed_call true ]} a_php)
       = [Processing a_php; StillNeedingUpdate 1; NoChangesMade]
     ∧ ¬ In AlreadyFullyUpdated
           (o_printed (process_file {[ a_php := File doc_closed_call true ]} a_php))).
Proof.
  assert (H : o_printed (process_file {[ a_php := File [] true ]} a_php)
              = [Processing a_php; NoChangesMade]) by (vm_compute; reflexivity).
  assert (H' : o_printed (process_file {[ a_php := File doc_closed_call true ]} a_php)
               = [Processing a_php; StillNeedingUpdate 1; NoChangesMade])
    by (vm_compute; reflexivity).
  repeat split; try (vm_compute; reflexivity); try exact H; try exact H'.
  - rewrite H. intros [?|[?|[]]]; discriminate.
  - rewrite H'. intros [?|[?|[?|[]]]]; discriminate.
Qed.

(** C7 (as amended): a file in which nothing is pending, that is, in
    which [update_catch_blocks] finds no eligible candidate, is never
    written, and [process_file] returns [False].  What is reported
    depends on the marker and on the count of the check, which is made
    with another pattern: with the marker and a count of 0, that the file
    is fully updated; with the marker and another count, that count and
    then that no changes were made; without the marker, that no changes
    were made. *)
Theorem C7_nothing_pending fs filepath content :
  read_text fs filepath = Some content →
  rewrites content = 0%nat →
  o_files (process_file fs filepath) = fs
  ∧ o_result (process_file fs filepath) = false
  ∧ (contains marker content = true → needs_update content = 0%nat →
     o_printed (process_file fs filepath) = [Processing filepath; AlreadyFullyUpdated])
  ∧ (contains marker content = true → needs_update content ≠ 0%nat →
     o_printed (process_file fs filepath)
     = [Processing filepath; StillNeedingUpdate (needs_update content); NoChangesMade])
  ∧ (contains marker content = false →
     o_printed (process_file fs filepath) = [Processing filepath; NoChangesMade]).
Proof.
  intros Hf Hn.
  assert (Hu : update_catch_blocks content = content).
  { destruct (decide (update_catch_blocks content = content)) as [E|E]; [done|].
    apply update_changes in E. lia. }
  destruct (process_file_fixed _ _ _ Hf Hu) as [E1 E2].
  split; [done|]. split; [done|].
  unfold process_file. rewrite Hf, Hu, decide_True by done.
  destruct (contains marker content); [destruct (needs_update content)|].
  all: repeat split; done.
Qed.

Lemma C7_nothing_pending_witness :
  read_text {[ a_php := File doc_closed_call true ]} a_php = Some doc_closed_call
  ∧ rewrites doc_closed_call = 0%nat
  ∧ contains marker doc_closed_call = true
  ∧ needs_update doc_closed_call = 1%nat
  ∧ o_files (process_file {[ a_php := File doc_closed_call true ]} a_php)
    = {[ a_php := File doc_closed_call true ]}
  ∧ o_result (process_file {[ a_php := File doc_closed_call true ]} a_php) = false
  ∧ o_printed (process_file {[ a_php := File doc_closed_call true ]} a_php)
    = [Processing a_php; StillNeedingUpdate (needs_update doc_closed_call); NoChangesMade].
Proof.
  assert (H1 : read_text {[ a_php := File doc_closed_call true ]} a_php
               = Some doc_closed_call) by (vm_compute; reflexivity).
  assert (H2 : rewrites doc_closed_call = 0%nat) by (vm_compute; reflexivity).
  assert (H3 : contains marker doc_closed_call = true) by (vm_compute; reflexivity).
  assert (H4 : needs_update doc_closed_call = 1%nat) by (vm_compute; reflexivity).
  assert (H5 : needs_update doc_closed_call ≠ 0%nat) by (rewrite H4; discriminate).
  destruct (C7_nothing_pending _ a_php doc_closed_call H1 H2) as (Ha & Hb & _ & Hc & _).
  split; [exact H1|]. split; [exact H2|]. split; [exact H3|]. split; [exact H4|].
  split; [exact Ha|]. split; [exact Hb|]. exact (Hc H3 H5).
Defined.

(** C8: a text in which the idiom does not occur comes back as it is;
    and whenever the text that was read comes back as it is, as it does
    for a text that was already rewritten, [process_file] leaves the
    files as they are. *)
Theorem C8_no_change_no_write fs filepath content :
  read_text fs filepath = Some content →
  (search pattern content = None → update_catch_blocks content = content)
  ∧ (update_catch_blocks content = content →
     o_files (process_file fs filepath) = fs ∧ o_result (process_file fs filepath) = false)
  ∧ (∀ d, content = update_catch_blocks d → o_files (process_file fs filepath) = fs).
Proof.
  intros Hf.
  split; [apply sub_no_match|]. split; [by apply process_file_fixed|].
  intros d ->. eapply process_file_fixed; [done|]. apply update_twice.
Qed.

Lemma C8_no_change_no_write_witness :
  read_text {[ a_php := File doc_plain true ]} a_php = Some doc_plain
  ∧ search pattern doc_plain = None
  ∧ update_catch_blocks doc_plain = doc_plain
  ∧ o_files (process_file {[ a_php := File doc_plain true ]} a_php)
    = {[ a_php := File doc_plain true ]}.
Proof.
  assert (H1 : read_text {[ a_php := File doc_plain true ]} a_php = Some doc_plain)
    by (vm_compute; reflexivity).
  assert (H2 : search pattern doc_plain = None) by (vm_compute; reflexivity).
  destruct (C8_no_change_no_write _ a_php doc_plain H1) as (Ha & Hb & _).
  split; [exact H1|]. split; [exact H2|]. split; [exact (Ha H2)|].
  exact (proj1 (Hb (Ha H2))).
Defined.

(** C9: a candidate whose first argument is the empty literal [''] is not
    eligible, and its span is substituted back unchanged. *)
Theorem C9_empty_literal_unchanged s m :
  match_here pattern s = Some m →
  raise_first_argument (group m 3) = [QUOTE; QUOTE] →
  replacement m = group m 0
  ∧ update_catch_blocks s = group m 0 ++ update_catch_blocks (m_rest m).
Proof.
  intros Hm Ha. apply no_description_unchanged; [done|].
  destruct (throw_line_shape _ _ Hm) as (c1 & c2 & c3 & y & c4 & c5 & Eg & Hc & Hy).
  rewrite Eg in *. clear Eg.
  rewrite raise_first_argument_shape in Ha by done. subst y. spaces_inv.
  intros (pre & p & d & post & E & v1 & v2 & -> & Hv & Hd & Hne & _).
  assert (∃ A B, B = d ++ [39] ++ post
            ∧ c1 ++ throw_stmt_text c2 c3 [QUOTE; QUOTE] c4 c5 = A ++ [39] ++ B)
    as (A & B & EB & E1).
  { exists (pre ++ s2l "throw" ++ v1 ++ s2l "new" ++ v2 ++ s2l "RagApiException("),
      (d ++ [39] ++ post). split; [done|]. rewrite E. unfold error_text.
    change (s2l "RagApiException('") with (s2l "RagApiException(" ++ [39]). by flat. }
  clear E. texts. change [39; 39] with ([39] ++ [39]) in E1.
  rewrite <- (app_nil_r (s2l "$e)")) in E1. flat_in E1.
  repeat occ_step E1.
  3: by destruct (app_cons_not_nil _ _ _ E1).
  all: apply (single_occ 39) in Ea as [-> ->]; rewrite EB in Eb; clear EB.
  - destruct d as [|h d]; [done|]. injection Eb as -> _.
    by apply Forall_cons_1 in Hd as [Hd _].
  - symmetry in Eb. eapply (free_has 39); [|exact Eb]. solve_free.
Qed.

Lemma C9_empty_literal_unchanged_witness :
  match_here pattern block_empty = Some m_empty
  ∧ raise_first_argument (group m_empty 3) = [QUOTE; QUOTE]
  ∧ replacement m_empty = group m_empty 0
  ∧ update_catch_blocks block_empty = group m_empty 0 ++ update_catch_blocks (m_rest m_empty).
Proof.
  assert (H1 : match_here pattern block_empty = Some m_empty) by (vm_compute; reflexivity).
  assert (H2 : raise_first_argument (group m_empty 3) = [QUOTE; QUOTE])
    by (vm_compute; reflexivity).
  split; [exact H1|]. split; [exact H2|].
  exact (C9_empty_literal_unchanged block_empty m_empty H1 H2).
Defined.

(** C10 (counterexample): the pattern of the check is not looser than the
    pattern of the transformation: in [doc_wide_throw] the second matches
    and the first does not. *)
Lemma C10_gate_pattern_not_looser :
  is_Some (search pattern doc_wide_throw) ∧ search gate_pattern doc_wide_throw = None.
Proof. split; [vm_compute; eexists; reflexivity|vm_compute; reflexivity]. Qed.

(** C10 (as amended): the check and the transformation use different
    patterns, neither of which is looser than the other: for
    [doc_closed_call] the check reports one block still to update and the
    transformation changes nothing; for [doc_wide_throw] the check
    reports that the file is fully updated and the transformation would
    rewrite one block. *)
Theorem C10_gate_and_transformation_differ :
  (contains marker doc_closed_call = true
   ∧ needs_update doc_closed_call = 1%nat
   ∧ update_catch_blocks doc_closed_call = doc_closed_call
   ∧ rewrites doc_closed_call = 0%nat
   ∧ o_printed (process_file {[ a_php := File doc_closed_call true ]} a_php)
     = [Processing a_php; StillNeedingUpdate 1; NoChangesMade])
  ∧ (contains marker doc_wide_throw = true
     ∧ needs_update doc_wide_throw = 0%nat
     ∧ update_catch_blocks doc_wide_throw ≠ doc_wide_throw
     ∧ rewrites doc_wide_throw = 1%nat
     ∧ o_printed (process_file {[ a_php := File doc_wide_throw true ]} a_php)
       = [Processing a_php; AlreadyFullyUpdated]).
Proof.
  repeat split; try (vm_compute; reflexivity). by vm_compute.
Qed.

(** * Further properties of the script *)

(** ** Passes that change the text *)

(** X1: [update_catch_blocks] changes the text exactly when it finds an
    eligible candidate in it. *)
Theorem X1_update_changes_iff_eligible content :
  update_catch_blocks content ≠ content ↔ (0 < rewrites content)%nat.
Proof. apply update_changes. Qed.

(** X2: a text that [update_catch_blocks] changed has the marker
    [extractErrorData] in it. *)
Theorem X2_update_changed_has_marker content :
  update_catch_blocks content ≠ content →
  contains marker (update_catch_blocks content) = true.
Proof. apply update_marker. Qed.

Lemma X2_update_changed_has_marker_witness :
  update_catch_blocks doc_foo ≠ doc_foo
  ∧ contains marker (update_catch_blocks doc_foo) = true.
Proof.
  assert (H : update_catch_blocks doc_foo ≠ doc_foo) by (by vm_compute).
  split; [exact H|]. exact (X2_update_changed_has_marker doc_foo H).
Defined.

(** ** The candidates left after a pass *)

Lemma update_candidates_aux n : ∀ s, (length s < n)%nat →
  findall pattern (update_catch_blocks s)
  = map m_all (filter (λ m, ¬ eligible m) (finditer pattern s)).
Proof.
  unfold findall.
  induction n as [|n IH]; intros s Hn; [lia|].
  destruct (match_here pattern s) as [m|] eqn:Hm.
  - pose proof (match_here_sound _ _ _ Hm) as [Es Hd].
    pose proof (match_here_len _ _ Hm) as Hl.
    rewrite (update_match _ _ Hm), (candidates_match _ _ Hm), filter_cons.
    specialize (IH (m_rest m) ltac:(lia)).
    set (z := update_catch_blocks (m_rest m)) in *.
    destruct (decide (eligible m)) as [[em Hs]|He].
    + rewrite decide_False by (intros H; apply H; by eexists).
      assert (quiet pattern (replacement m) z) as Hq.
      { unfold replacement. rewrite Hs. destruct m as [g0 caps rest].
        cbn [m_all m_caps m_rest group] in *.
        apply pattern_shape in Hd
          as (g1 & w1 & g2 & sm & w2 & c1 & t & _ & -> & Hg1 & Hg2 & Ht & Hw & Hc1 & Hsm).
        cbn [group_of Nat.eqb] in *. spaces_inv.
        apply description_free in Hs as (Hd & _); [|done..].
        destruct Hg2 as (b1 & x & b2 & q1 & q2 & b3 & b4 & -> & Hb & Hx & _ & Hq1 & Hq2).
        by apply new_block_quiet. }
      by rewrite (finditer_quiet _ _ _ Hq).
    + rewrite decide_True by done.
      destruct (match_here_complete pattern (m_all m) z _ Hd) as [m2 Hm2].
      pose proof (match_here_sound _ _ _ Hm2) as [E2 Hd2].
      destruct (pattern_unique _ _ _ _ _ _ Hd2 Hd (eq_sym E2)) as (Ea & Er & _).
      rewrite (not_eligible_unchanged _ He), (candidates_match _ _ Hm2), Er. cbn [map].
      by rewrite Ea, IH.
  - destruct s as [|x s]; [done|].
    specialize (IH s ltac:(simpl in Hn; lia)).
    assert (Hu : update_catch_blocks (x :: s) = x :: update_catch_blocks s)
      by (by apply sub_nomatch).
    assert (Hm' : match_here pattern (x :: update_catch_blocks s) = None).
    { destruct (match_here pattern (x :: update_catch_blocks s)) eqn:Hm'; [|done].
      destruct (update_match_back (x :: s)) as [? Hc]; [by rewrite Hu, Hm'|].
      by rewrite Hm in Hc. }
    by rewrite Hu, (finditer_nomatch _ _ _ Hm'), (finditer_nomatch _ _ _ Hm).
Qed.

(** X3: the candidates [update_catch_blocks] leaves in the text are the
    candidates that were not eligible, with their spans, in their order:
    the eligible ones are gone and no new one appears. *)
Theorem X3_update_leaves_ineligible_candidates content :
  findall pattern (update_catch_blocks content)
  = map m_all (filter (λ m, ¬ eligible m) (finditer pattern content))
  ∧ length (finditer pattern (update_catch_blocks content))
    = (length (finditer pattern content) - rewrites content)%nat.
Proof.
  pose proof (update_candidates_aux (S (length content)) content ltac:(lia)) as H.
  split; [exact H|].
  apply (f_equal length) in H. unfold findall in H. rewrite !length_map in H. rewrite H.
  unfold rewrites. generalize (finditer pattern content). intros l.
  induction l as [|m l IH]; [done|]. rewrite !filter_cons.
  pose proof (length_filter (λ m, bool_decide (eligible m)) l) as Hle.
  destruct (decide (eligible m)) as [He|He].
  - rewrite decide_False by (by intros H'). rewrite decide_True by (by apply bool_decide_pack).
    cbn [length]. lia.
  - rewrite decide_True by done.
    rewrite decide_False by (intros H'; by apply bool_decide_unpack in H').
    cbn [length]. lia.
Qed.

(** ** The texts a candidate cannot do without *)

Lemma pattern_has_texts p c k : den pattern p [] c → k ∈ pattern_texts → contains k p = true.
Proof.
  intros Hd Hk.
  apply pattern_shape in Hd
    as (g1 & w1 & g2 & sm & w2 & c1 & t & -> & _ & Hg1 & Hg2 & Ht & _).
  open_line Hg1. open_line Hg2. open_line Ht. texts. flat.
  unfold pattern_texts in Hk. texts.
  repeat (apply elem_of_cons in Hk as [->|Hk]); [..|by apply elem_of_nil in Hk].
  all: has_text.
Qed.

Lemma gate_has_texts p c c' k : den gate_pattern p c c' → k ∈ gate_texts → contains k p = true.
Proof.
  intros Hd Hk. unfold gate_pattern, nl in Hd. cbn [den] in Hd. break. subst. flat.
  unfold gate_texts in Hk. texts.
  repeat (apply elem_of_cons in Hk as [->|Hk]); [..|by apply elem_of_nil in Hk].
  all: has_text.
Qed.

Lemma search_needs r (k s : str) :
  (∀ p c, den r p [] c → contains k p = true) →
  contains k s = false → search r s = None.
Proof.
  intros Hr Hk. destruct (search r s) as [m|] eqn:Hs; [|done].
  apply search_Some in Hs as (t & -> & Hd). apply Hr in Hd.
  rewrite contains_app_r in Hk; [done|]. by apply contains_app_l.
Qed.

(** X4: a text that lacks one of the fixed texts of the pattern of
    [update_catch_blocks], or a part [l] of one, has no candidate, and
    [update_catch_blocks] gives it back as it is. *)
Theorem X4_update_needs_every_text content l k :
  k ∈ pattern_texts → contains l k = true → contains l content = false →
  finditer pattern content = [] ∧ update_catch_blocks content = content.
Proof.
  intros Hk Hl Hc.
  assert (Hs : search pattern content = None).
  { apply (search_needs _ l); [|done]. intros p c Hd.
    eapply contains_trans; [done|]. by eapply pattern_has_texts. }
  split; [by apply finditer_no_match|by apply sub_no_match].
Qed.

Lemma X4_update_needs_every_text_witness :
  s2l "$this->extractErrorMessage($e);" ∈ pattern_texts
  ∧ contains (s2l "extractErrorMessage") (s2l "$this->extractErrorMessage($e);") = true
  ∧ contains (s2l "extractErrorMessage") doc_plain = false
  ∧ finditer pattern doc_plain = []
  ∧ update_catch_blocks doc_plain = doc_plain.
Proof.
  assert (H1 : s2l "$this->extractErrorMessage($e);" ∈ pattern_texts).
  { unfold pattern_texts. do 8 right. left. }
  assert (H2 : contains (s2l "extractErrorMessage") (s2l "$this->extractErrorMessage($e);") = true)
    by (vm_compute; reflexivity).
  assert (H3 : contains (s2l "extractErrorMessage") doc_plain = false)
    by (vm_compute; reflexivity).
  split; [exact H1|]. split; [exact H2|]. split; [exact H3|].
  exact (X4_update_needs_every_text doc_plain _ _ H1 H2 H3).
Defined.

(** ** The text before the first closing brace *)

(** X5: the text before the first closing brace is copied as it is, and
    [update_catch_blocks] goes on as it would on the rest alone; the
    candidates found are those of the rest. *)
Theorem X5_update_after_prefix pre s :
  free RBRACE pre →
  update_catch_blocks (pre ++ s) = pre ++ update_catch_blocks s
  ∧ finditer pattern (pre ++ s) = finditer pattern s.
Proof.
  intros Hf. split; [apply sub_quiet|apply finditer_quiet]; by apply quiet_no_brace.
Qed.

Lemma X5_update_after_prefix_witness :
  free RBRACE (s2l "    ")
  ∧ update_catch_blocks (s2l "    " ++ block_foo) = s2l "    " ++ update_catch_blocks block_foo
  ∧ finditer pattern (s2l "    " ++ block_foo) = finditer pattern block_foo.
Proof.
  assert (H : free RBRACE (s2l "    ")) by (apply free_lit; vm_compute; reflexivity).
  split; [exact H|]. exact (X5_update_after_prefix (s2l "    ") block_foo H).
Defined.

(** ** The end of the logging line *)

(** X6: between the bracket that ends the mapping of the logging call and the
    end of the line, the pattern takes a semicolon right after the bracket
    and white space, and nothing else: an occurrence that has another
    character [c] there, after a text [pre] of the same line, is not
    matched; so it is with the [)] that closes the call in valid PHP,
    wherever it stands on the line.  [hx] is the text up to the end of
    the first argument of the logging call, [mid] the text from the
    comma to the variable. *)
Theorem X6_closed_call_not_matched (hx mid pre rest : str) (c : char) :
  free COMMA hx → free DOLLAR mid →
  free LF pre → isspace c = false → (pre = [] → c ≠ SEMI) →
  match_here pattern
    (hx ++ s2l "," ++ mid ++ s2l "$errorMessage]" ++ pre ++ [c] ++ rest) = None.
Proof.
  intros Hhx Hmid Hpre Hc2 Hc1. apply match_here_None. intros p s' cs E Hd.
  apply pattern_shape in Hd
    as (g1 & w1 & g2 & sm & w2 & c1 & t & -> & _ & Hg1 & Hg2 & Ht & Hw' & Hc1' & Hsm).
  open_line Hg1. open_line Hg2. open_line Ht. spaces_inv. texts. flat_in E.
  fold (all_in (CNot 44) hx) in Hhx.
  apply (f_equal (skip_to 44)) in E. unfold skip_to in E. sk_in E.
  peel_step E.
  apply (f_equal (skip_to 36)) in E. unfold skip_to, DOLLAR in *. sk_in E.
  peel_step E. peel_step E.
  destruct Hsm as [-> | ->]; flat_in E.
  - eapply line_end_clash; [exact Hpre|exact Hc2| |exact E]. assumption.
  - destruct Hpre as [|x' pre' Hx' Hpre'].
    + injection E as -> _. by apply Hc1.
    + injection E as -> E. eapply line_end_clash; [exact Hpre'|exact Hc2| |exact E].
      assumption.
Qed.

Lemma X6_closed_call_not_matched_witness :
  free COMMA logger_call_head
  ∧ free DOLLAR closed_call_mid
  ∧ free LF []
  ∧ isspace RPAREN = false
  ∧ (([] : str) = [] → RPAREN ≠ SEMI)
  ∧ block_closed_call
    = logger_call_head ++ s2l "," ++ closed_call_mid ++ s2l "$errorMessage]" ++ []
      ++ [RPAREN] ++ closed_call_tail
  ∧ match_here pattern block_closed_call = None
  ∧ update_catch_blocks block_closed_call = block_closed_call.
Proof.
  assert (H1 : free COMMA logger_call_head) by (apply free_lit; vm_compute; reflexivity).
  assert (H2 : free DOLLAR closed_call_mid) by (apply free_lit; vm_compute; reflexivity).
  assert (H3 : free LF []) by constructor.
  assert (H4 : isspace RPAREN = false) by (vm_compute; reflexivity).
  assert (H5 : ([] : str) = [] → RPAREN ≠ SEMI) by (vm_compute; discriminate).
  assert (H6 : block_closed_call
    = logger_call_head ++ s2l "," ++ closed_call_mid ++ s2l "$errorMessage]" ++ []
      ++ [RPAREN] ++ closed_call_tail) by (vm_compute; reflexivity).
  split; [exact H1|]. split; [exact H2|]. split; [exact H3|]. split; [exact H4|].
  split; [exact H5|]. split; [exact H6|]. split; [|vm_compute; reflexivity].
  rewrite H6. exact (X6_closed_call_not_matched _ _ [] closed_call_tail RPAREN H1 H2 H3 H4 H5).
Defined.

(** ** A first argument that starts with a literal *)

Lemma search_at_head r s m : match_here r s = Some m → search r s = Some m.
Proof. intros H. destruct s; simpl; by rewrite H. Qed.

(** The description of a raise line whose first argument starts with a
    single-quoted literal of at least one character is the text between
    the quotes, whatever follows the literal. *)
Lemma literal_prefix_description c1 c2 c3 d more c4 c5 :
  spaces [c1; c2; c3; c4; c5] → c2 ≠ [] → c3 ≠ [] → d ≠ [] → free QUOTE d →
  ∃ em, search error_pattern
          (c1 ++ throw_stmt_text c2 c3 ([QUOTE] ++ d ++ [QUOTE] ++ more) c4 c5) = Some em
        ∧ group em 1 = d.
Proof.
  intros Hc Hc2 Hc3 Hne Hd. spaces_inv.
  set (rest := more ++ s2l "," ++ c4 ++ s2l "$e->getCode()," ++ c5 ++ s2l "$e)").
  assert (Et : throw_stmt_text c2 c3 ([QUOTE] ++ d ++ [QUOTE] ++ more) c4 c5
               = error_text c2 c3 d ++ rest).
  { unfold throw_stmt_text, error_text, rest.
    change (s2l "RagApiException('") with (s2l "RagApiException(" ++ [QUOTE]). by flat. }
  assert (Hden : den error_pattern (error_text c2 c3 d) [] [(1%nat, d)]).
  { unfold error_pattern, error_text, ws1. cbn [den].
    repeat first
      [ eexists
      | split; [reflexivity|]
      | split; [split; [reflexivity|reflexivity]|]
      | split; [split; [split; [eassumption|eassumption]|reflexivity]|] ].
    all: first [assumption|exact Hd]. }
  destruct (match_here_complete _ _ rest _ Hden) as [em Hm].
  exists em. split.
  - rewrite <- search_skipws. unfold skipws. rewrite skip_app by done.
    rewrite Et. unfold error_text at 1. sk. fold (error_text c2 c3 d).
    by apply search_at_head.
  - apply match_here_sound in Hm as [E Hd'].
    apply error_pattern_shape in Hd' as (d' & Hc' & v1 & v2 & Hp & Hv & Hd' & _).
    destruct em as [p c' post]. cbn [m_all m_caps m_rest group group_of] in *.
    subst c' p. cbn [group_of Nat.eqb]. spaces_inv.
    clearbody rest. clear Et Hden. texts. flat_in E.
    do 5 (peel_step E; try flat_in E).
    symmetry. eapply (first_occ 39); [exact Hd|exact Hd'|exact E].
Qed.

(** X7: a candidate whose first argument starts with a single-quoted
    literal of at least one character is eligible, and its block is
    built on the text between the quotes: whatever follows the literal
    in the argument ([more]) is not in the block. *)
Theorem X7_literal_prefix_rewritten s m d more :
  match_here pattern s = Some m →
  raise_first_argument (group m 3) = [QUOTE] ++ d ++ [QUOTE] ++ more →
  d ≠ [] → free QUOTE d →
  eligible m ∧ replacement m = new_block indent (group m 1) (group m 2) d.
Proof.
  intros Hm Ha Hne Hd.
  apply match_here_sound in Hm as [_ Hden]. destruct m as [g0 caps rest].
  cbn [m_all m_caps m_rest group] in *.
  apply pattern_shape in Hden
    as (g1 & w1 & g2 & sm & w2 & c1 & t & _ & -> & _ & _ & Ht & Hw & Hc1 & _).
  unfold eligible, replacement.
  cbn [group m_caps group_of Nat.eqb] in *. spaces_inv.
  destruct Ht as (c2 & c3 & y & c4 & c5 & -> & Hc & Hy & _ & Hc2 & Hc3).
  assert (Hsp : spaces [c1; c2; c3; c4; c5])
    by (spaces_inv; unfold spaces; repeat constructor; assumption).
  rewrite raise_first_argument_shape in Ha by done. subst y.
  destruct (literal_prefix_description c1 c2 c3 d more c4 c5 Hsp Hc2 Hc3 Hne Hd)
    as (em & -> & <-).
  split; [by eexists|done].
Qed.

Lemma X7_literal_prefix_rewritten_witness :
  match_here pattern block_concat = Some m_concat
  ∧ raise_first_argument (group m_concat 3) = [QUOTE] ++ s2l "Foo: " ++ [QUOTE] ++ s2l " . $id"
  ∧ s2l "Foo: " ≠ []
  ∧ free QUOTE (s2l "Foo: ")
  ∧ eligible m_concat
  ∧ replacement m_concat
    = new_block indent (group m_concat 1) (group m_concat 2) (s2l "Foo: ").
Proof.
  assert (H1 : match_here pattern block_concat = Some m_concat) by (vm_compute; reflexivity).
  assert (H2 : raise_first_argument (group m_concat 3)
               = [QUOTE] ++ s2l "Foo: " ++ [QUOTE] ++ s2l " . $id") by (vm_compute; reflexivity).
  assert (H3 : s2l "Foo: " ≠ []) by (vm_compute; discriminate).
  assert (H4 : free QUOTE (s2l "Foo: ")) by (apply free_lit; vm_compute; reflexivity).
  split; [exact H1|]. split; [exact H2|]. split; [exact H3|]. split; [exact H4|].
  exact (X7_literal_prefix_rewritten block_concat m_concat _ _ H1 H2 H3 H4).
Defined.

(** X8: the description [replacement] extracts from an eligible
    candidate is a text of at least one character, without quote and
    without comma, that stands in the raise line between
    [RagApiException('] and a quote. *)
Theorem X8_description_of_eligible s m em :
  match_here pattern s = Some m →
  search error_pattern (group m 3) = Some em →
  group em 1 ≠ [] ∧ free QUOTE (group em 1) ∧ free COMMA (group em 1)
  ∧ ∃ pre post,
      group m 3 = pre ++ s2l "RagApiException('" ++ group em 1 ++ [QUOTE] ++ post.
Proof.
  intros Hm Hs.
  apply match_here_sound in Hm as [_ Hd]. destruct m as [g0 caps rest].
  cbn [m_all m_caps m_rest group] in *.
  apply pattern_shape in Hd
    as (g1 & w1 & g2 & sm & w2 & c1 & t & _ & -> & _ & _ & Ht & Hw & _).
  cbn [group_of Nat.eqb] in *. spaces_inv.
  destruct (description_free _ _ _ ltac:(done) Ht Hs) as (Hcomma & Hquote & Hne).
  split; [done|]. split; [done|]. split; [done|].
  apply search_Some in Hs as (pre & E & Hden).
  apply error_pattern_shape in Hden as (d & Hc & v1 & v2 & Hp & _).
  destruct em as [p c post]. cbn [m_all m_caps m_rest group group_of] in *. subst c p.
  cbn [group_of Nat.eqb].
  exists (pre ++ s2l "throw" ++ v1 ++ s2l "new" ++ v2), post.
  rewrite E. unfold error_text. by flat.
Qed.

Lemma X8_description_of_eligible_witness :
  match_here pattern block_foo = Some m_foo
  ∧ search error_pattern (group m_foo 3) = Some em_foo
  ∧ group em_foo 1 = s2l "Foo failed: "
  ∧ group em_foo 1 ≠ [] ∧ free QUOTE (group em_foo 1) ∧ free COMMA (group em_foo 1)
  ∧ ∃ pre post,
      group m_foo 3 = pre ++ s2l "RagApiException('" ++ group em_foo 1 ++ [QUOTE] ++ post.
Proof.
  assert (H1 : match_here pattern block_foo = Some m_foo) by (vm_compute; reflexivity).
  assert (H2 : search error_pattern (group m_foo 3) = Some em_foo)
    by (vm_compute; reflexivity).
  split; [exact H1|]. split; [exact H2|]. split; [vm_compute; reflexivity|].
  exact (X8_description_of_eligible block_foo m_foo em_foo H1 H2).
Defined.

(** ** [process_file] and the files *)

(** X9: [process_file] only ever touches the file it is given: no path is
    created or removed, and every other path keeps its content. *)
Theorem X9_process_file_touches_one_file fs filepath :
  dom (o_files (process_file fs filepath)) = dom fs
  ∧ ∀ other, other ≠ filepath → o_files (process_file fs filepath) !! other = fs !! other.
Proof. apply process_file_frame. Qed.

(** X10: the value [process_file] returns tells whether the file was
    changed: it is [True] exactly when the files differ afterwards,
    which is exactly when the success line is printed.  The file then
    holds, with [\n] for line ends, what [update_catch_blocks] makes of
    the text that was read (the stored text with its line ends
    translated); that differs from the text that was read, and it is what
    the next reading of the file gives. *)
Theorem X10_process_file_true_iff_changed fs filepath :
  (o_result (process_file fs filepath) = true ↔ o_files (process_file fs filepath) ≠ fs)
  ∧ (o_result (process_file fs filepath) = true
     ↔ In UpdatedSuccessfully (o_printed (process_file fs filepath)))
  ∧ (o_result (process_file fs filepath) = true →
     ∃ f, fs !! filepath = Some f
       ∧ update_catch_blocks (universal_newlines (f_data f)) ≠ universal_newlines (f_data f)
       ∧ o_files (process_file fs filepath) !! filepath
         = Some (File (update_catch_blocks (universal_newlines (f_data f))) true)
       ∧ read_text (o_files (process_file fs filepath)) filepath
         = Some (update_catch_blocks (universal_newlines (f_data f)))).
Proof.
  pose proof (process_file_cases fs filepath) as H.
  destruct (fs !! filepath) as [f|] eqn:Hf.
  - destruct H as [(E1 & E2 & E3)|(Hw & Hne & E1 & E2 & E3)]; rewrite E1, E2.
    + repeat split; done.
    + repeat split; try done.
      * intros _. by apply written_changes.
      * intros _. exists f. unfold read_text. rewrite lookup_insert_eq. cbn [f_data].
        by rewrite read_back.
  - rewrite H. cbn. repeat split; try done. intros [?|[?|[]]]; discriminate.
Qed.


(** X12: running [process_file] a second time on the same file changes
    nothing and returns [False]. *)
Theorem X12_process_file_twice fs filepath :
  o_files (process_file (o_files (process_file fs filepath)) filepath)
    = o_files (process_file fs filepath)
  ∧ o_result (process_file (o_files (process_file fs filepath)) filepath) = false.
Proof. apply process_file_settles. Qed.

(** X13: after a run of [process_file] that wrote the file, the text read
    from it has the marker, so that the next run goes through the check:
    it reports either that the file is fully updated, or a number of
    blocks still to update, which is not 0, and then that no changes
    were made. *)
Theorem X13_process_file_after_write fs filepath :
  o_result (process_file fs filepath) = true →
  ∃ content,
    read_text (o_files (process_file fs filepath)) filepath = Some content
    ∧ contains marker content = true
    ∧ (o_printed (process_file (o_files (process_file fs filepath)) filepath)
         = [Processing filepath; AlreadyFullyUpdated]
       ∨ (needs_update content ≠ 0%nat
          ∧ o_printed (process_file (o_files (process_file fs filepath)) filepath)
            = [Processing filepath; StillNeedingUpdate (needs_update content); NoChangesMade])).
Proof.
  intros Hr. pose proof (process_file_cases fs filepath) as H.
  destruct (fs !! filepath) as [f|] eqn:Hf; [|by rewrite H in Hr].
  destruct H as [(_ & E & _)|(_ & Hne & E & _)]; [congruence|]. rewrite E.
  set (c := universal_newlines (f_data f)) in *.
  exists (update_catch_blocks c).
  pose proof (update_marker c Hne) as Hm.
  assert (Hread : read_text (<[filepath := File (update_catch_blocks c) true]> fs) filepath
                  = Some (update_catch_blocks c)).
  { unfold read_text. rewrite lookup_insert_eq. cbn [f_data]. unfold c. by rewrite read_back. }
  split; [done|]. split; [done|].
  unfold process_file. rewrite Hread, Hm, update_twice.
  destruct (needs_update (update_catch_blocks c)); [by left|right].
  split; [done|]. by rewrite decide_True.
Qed.

Lemma X13_process_file_after_write_witness :
  o_result (process_file {[ a_php := File doc_foo true ]} a_php) = true
  ∧ ∃ content,
      read_text (o_files (process_file {[ a_php := File doc_foo true ]} a_php)) a_php
      = Some content
      ∧ contains marker content = true
      ∧ (o_printed (process_file
                      (o_files (process_file {[ a_php := File doc_foo true ]} a_php)) a_php)
           = [Processing a_php; AlreadyFullyUpdated]
         ∨ (needs_update content ≠ 0%nat
            ∧ o_printed (process_file
                           (o_files (process_file {[ a_php := File doc_foo true ]} a_php))
                           a_php)
              = [Processing a_php; StillNeedingUpdate (needs_update content); NoChangesMade])).
Proof.
  assert (H : o_result (process_file {[ a_php := File doc_foo true ]} a_php) = true)
    by (vm_compute; reflexivity).
  split; [exact H|]. exact (X13_process_file_after_write _ a_php H).
Defined.

(** ** The check of [process_file] *)

(** X14: with the marker in the text that was read, a file that lacks one
    of the fixed texts of the pattern of the check, or a part [l] of
    one, is reported as fully updated: nothing is pending for the check
    and nothing is written, whatever [update_catch_blocks] would make of
    the content. *)
Theorem X14_gate_needs_every_text fs filepath content l k :
  read_text fs filepath = Some content → contains marker content = true →
  k ∈ gate_texts → contains l k = true → contains l content = false →
  needs_update content = 0%nat
  ∧ process_file fs filepath = Outcome fs [Processing filepath; AlreadyFullyUpdated] false.
Proof.
  intros Hf Hm Hk Hl Hc.
  assert (Hs : search gate_pattern content = None).
  { apply (search_needs _ l); [|done]. intros p c Hd.
    eapply contains_trans; [done|]. by eapply gate_has_texts. }
  assert (Hn : needs_update content = 0%nat).
  { unfold needs_update, findall. by rewrite finditer_no_match. }
  split; [done|]. unfold process_file. by rewrite Hf, Hm, Hn.
Qed.

Lemma X14_gate_needs_every_text_witness :
  read_text {[ a_php := File doc_wide_throw true ]} a_php = Some doc_wide_throw
  ∧ contains marker doc_wide_throw = true
  ∧ s2l "throw new RagApiException" ∈ gate_texts
  ∧ contains (s2l "throw new") (s2l "throw new RagApiException") = true
  ∧ contains (s2l "throw new") doc_wide_throw = false
  ∧ update_catch_blocks doc_wide_throw ≠ doc_wide_throw
  ∧ needs_update doc_wide_throw = 0%nat
  ∧ process_file {[ a_php := File doc_wide_throw true ]} a_php
    = Outcome {[ a_php := File doc_wide_throw true ]}
        [Processing a_php; AlreadyFullyUpdated] false.
Proof.
  assert (H1 : read_text {[ a_php := File doc_wide_throw true ]} a_php = Some doc_wide_throw)
    by (vm_compute; reflexivity).
  assert (H2 : contains marker doc_wide_throw = true) by (vm_compute; reflexivity).
  assert (H3 : s2l "throw new RagApiException" ∈ gate_texts).
  { unfold gate_texts. do 3 right. left. }
  assert (H4 : contains (s2l "throw new") (s2l "throw new RagApiException") = true)
    by (vm_compute; reflexivity).
  assert (H5 : contains (s2l "throw new") doc_wide_throw = false) by (vm_compute; reflexivity).
  split; [exact H1|]. split; [exact H2|]. split; [exact H3|]. split; [exact H4|].
  split; [exact H5|]. split; [by vm_compute|].
  exact (X14_gate_needs_every_text _ a_php doc_wide_throw _ _ H1 H2 H3 H4 H5).
Defined.

(** ** [main] and the files *)

Lemma main_files_NoDup : NoDup main_files.
Proof.
  unfold main_files. repeat (apply NoDup_cons; split); [| |apply not_elem_of_nil|apply NoDup_nil_2].
  all: rewrite ?elem_of_cons, elem_of_nil; intros H; repeat destruct H as [H|H]; done.
Qed.

Lemma filter_ext_in {A} (P Q : A → Prop) `{∀ x, Decision (P x)} `{∀ x, Decision (Q x)}
    (l : list A) :
  (∀ x, x ∈ l → P x ↔ Q x) → filter P l = filter Q l.
Proof.
  induction l as [|x l IH]; intros HPQ; [done|]. rewrite !filter_cons.
  rewrite IH by (intros y Hy; apply HPQ; by right).
  destruct (decide (P x)) as [HP|HP], (decide (Q x)) as [HQ|HQ]; try done.
  - destruct HQ. apply HPQ; [left|done].
  - destruct HP. apply HPQ; [left|done].
Qed.

(** The loop leaves alone every path that is not in its list. *)
Lemma main_loop_frame l : ∀ fs n pr,
  dom (main_loop l fs n pr).1.1 = dom fs
  ∧ ∀ other, other ∉ l → (main_loop l fs n pr).1.1 !! other = fs !! other.
Proof.
  induction l as [|p l IH]; intros fs n pr; [done|]. cbn [main_loop].
  destruct (IH (o_files (process_file fs p))
               (if o_result (process_file fs p) then S n else n)
               (pr ++ o_printed (process_file fs p))) as [IH1 IH2].
  destruct (process_file_frame fs p) as [F1 F2].
  split; [by rewrite IH1|].
  intros other Hn. apply not_elem_of_cons in Hn as [Hne Hn]. rewrite IH2 by done. by apply F2.
Qed.

(** The loop counts the files of its list whose content it changed. *)
Lemma main_loop_count l : NoDup l → ∀ fs n pr,
  (main_loop l fs n pr).1.2
  = (n + length (filter (λ p, (main_loop l fs n pr).1.1 !! p ≠ fs !! p) l))%nat.
Proof.
  induction 1 as [|p l Hp Hl IH]; intros fs n pr; [cbn; lia|]. cbn [main_loop].
  set (o := process_file fs p). rewrite IH.
  set (fs' := (main_loop l (o_files o) _ _).1.1).
  assert (Ep : fs' !! p = o_files o !! p) by (by apply main_loop_frame).
  assert (El : filter (λ q, fs' !! q ≠ o_files o !! q) l = filter (λ q, fs' !! q ≠ fs !! q) l).
  { apply filter_ext_in. intros q Hq.
    assert (q ≠ p) by (intros ->; done).
    destruct (process_file_frame fs p) as [_ F]. fold o in F. by rewrite F. }
  rewrite El, filter_cons. pose proof (process_file_cases fs p) as H. fold o in H.
  destruct (fs !! p) as [f|] eqn:Hf.
  - destruct H as [(E1 & E2 & _)|(_ & Hne & E1 & E2 & _)]; rewrite E2.
    + rewrite decide_False; [lia|]. rewrite Ep, E1, Hf. by intros [].
    + rewrite decide_True; [cbn; lia|]. rewrite Ep. intros E.
      apply (written_changes _ _ _ Hf Hne). rewrite <- E1. apply map_eq. intros q.
      destruct (decide (q = p)) as [->|Hq]; [by rewrite E, Hf|].
      by apply process_file_frame.
  - subst o. rewrite H in *. cbn in *. rewrite decide_False; [lia|]. rewrite Ep, Hf. by intros [].
Qed.

Lemma settled_local fs fs' filepath :
  fs !! filepath = fs' !! filepath → settled fs filepath → settled fs' filepath.
Proof.
  intros E [H1 H2]. destruct (process_file_local fs fs' filepath E) as (E1 & _ & E3).
  split; [by apply E3|by rewrite <- E1].
Qed.

Lemma main_loop_settles l : NoDup l → ∀ fs n pr p,
  p ∈ l → settled (main_loop l fs n pr).1.1 p.
Proof.
  induction 1 as [|p0 l Hp Hl IH]; intros fs n pr p Hin; [by apply elem_of_nil in Hin|].
  cbn [main_loop]. apply elem_of_cons in Hin as [->|Hin]; [|by apply IH].
  eapply settled_local; [|apply process_file_settles].
  symmetry. by apply main_loop_frame.
Qed.

Lemma main_loop_settled l : ∀ fs n pr,
  (∀ p, p ∈ l → settled fs p) →
  (main_loop l fs n pr).1.1 = fs ∧ (main_loop l fs n pr).1.2 = n.
Proof.
  induction l as [|p l IH]; intros fs n pr Hs; [done|]. cbn [main_loop].
  destruct (Hs p) as [E1 E2]; [left|]. rewrite E1, E2. apply IH.
  intros q Hq. apply Hs. by right.
Qed.

Lemma main_loop_missing l : ∀ fs n pr,
  (∀ p, p ∈ l → fs !! p = None) →
  main_loop l fs n pr = (fs, n, pr ++ flat_map (λ p, [Processing p; ErrorReport]) l).
Proof.
  induction l as [|p l IH]; intros fs n pr H; [by rewrite app_nil_r|]. cbn [main_loop].
  assert (E : process_file fs p = Outcome fs [Processing p; ErrorReport] false).
  { unfold process_file, read_text. by rewrite (H p) by left. }
  rewrite E. cbn [o_files o_result o_printed].
  rewrite IH by (intros q Hq; apply H; by right). cbn [flat_map]. by rewrite <- app_assoc.
Qed.

Lemma main_eq fs :
  main fs = MainOutcome (main_loop main_files fs 0 []).1.1
    (map FileLine (main_loop main_files fs 0 []).2
     ++ [EmptyLine; RuleLine 60;
         UpdatedFiles (main_loop main_files fs 0 []).1.2 (length main_files); RuleLine 60])
    (main_loop main_files fs 0 []).1.2.
Proof. unfold main. by destruct (main_loop main_files fs 0 []) as [[? ?] ?]. Qed.

(** X15: [main] touches the three files of its list and nothing else: no
    path is created or removed, and every other path keeps its content. *)
Theorem X15_main_touches_its_files fs :
  dom (mo_files (main fs)) = dom fs
  ∧ ∀ other, other ∉ main_files → mo_files (main fs) !! other = fs !! other.
Proof. rewrite main_eq. apply main_loop_frame. Qed.

(** X16: the count [main] reports is the number of files of its list whose
    content differs afterwards, out of three; it is printed between the
    two rules, after the lines of the files. *)
Theorem X16_main_counts_changed_files fs :
  mo_updated_count (main fs)
  = length (filter (λ p, mo_files (main fs) !! p ≠ fs !! p) main_files)
  ∧ (mo_updated_count (main fs) ≤ 3)%nat
  ∧ ∃ file_lines,
      mo_printed (main fs)
      = map FileLine file_lines
        ++ [EmptyLine; RuleLine 60; UpdatedFiles (mo_updated_count (main fs)) 3; RuleLine 60].
Proof.
  rewrite main_eq. cbn [mo_files mo_updated_count mo_printed].
  pose proof (main_loop_count main_files main_files_NoDup fs 0 []) as H.
  split; [exact H|]. split; [|by eexists].
  rewrite H. cbn [Nat.add]. etrans; [apply length_filter|]. done.
Qed.

(** X17: a second run of [main] finds nothing to write: it leaves the
    files as the first run left them and counts 0 files updated. *)
Theorem X17_main_twice fs :
  mo_files (main (mo_files (main fs))) = mo_files (main fs)
  ∧ mo_updated_count (main (mo_files (main fs))) = 0%nat.
Proof.
  rewrite (main_eq (mo_files (main fs))). cbn [mo_files mo_updated_count].
  apply main_loop_settled. intros p Hp. rewrite main_eq. cbn [mo_files].
  by apply main_loop_settles; [apply main_files_NoDup|].
Qed.

(** X18: when none of the three files can be opened, [main] reports an
    error for each of them, writes nothing and reports 0 files out of
    3. *)
Theorem X18_main_without_files fs :
  (∀ p, p ∈ main_files → fs !! p = None) →
  main fs = MainOutcome fs
    [ FileLine (Processing "src/Client/RagClient.php"); FileLine ErrorReport;
      FileLine (Processing "src/Client/AdminClient.php"); FileLine ErrorReport;
      FileLine (Processing "src/Client/OrganizationClient.php"); FileLine ErrorReport;
      EmptyLine; RuleLine 60; UpdatedFiles 0 3; RuleLine 60 ] 0.
Proof.
  intros H. rewrite main_eq, (main_loop_missing main_files fs 0 [] H). done.
Qed.

Lemma X18_main_without_files_witness :
  (∀ p, p ∈ main_files → (∅ : files) !! p = None)
  ∧ main ∅ = MainOutcome ∅
      [ FileLine (Processing "src/Client/RagClient.php"); FileLine ErrorReport;
        FileLine (Processing "src/Client/AdminClient.php"); FileLine ErrorReport;
        FileLine (Processing "src/Client/OrganizationClient.php"); FileLine ErrorReport;
        EmptyLine; RuleLine 60; UpdatedFiles 0 3; RuleLine 60 ] 0.
Proof.
  assert (H : ∀ p, p ∈ main_files → (∅ : files) !! p = None) by (intros p _; reflexivity).
  split; [exact H|]. exact (X18_main_without_files ∅ H).
Defined.

Lemma flat_map_ext_in {A B} (f g : A → list B) (l : list A) :
  (∀ x, x ∈ l → f x = g x) → flat_map f l = flat_map g l.
Proof.
  induction l as [|x l IH]; intros H; [done|]. cbn [flat_map].
  rewrite (H x) by left. rewrite IH; [done|]. intros y Hy. apply H. by right.
Qed.

(** The loop, in terms of calls of [process_file] on the files as they
    were at the start. *)
Lemma main_loop_independent l : NoDup l → ∀ fs n pr,
  (main_loop l fs n pr).2 = pr ++ flat_map (λ p, o_printed (process_file fs p)) l
  ∧ (main_loop l fs n pr).1.2
    = (n + length (filter (λ p, o_result (process_file fs p) = true) l))%nat
  ∧ ∀ p, p ∈ l → (main_loop l fs n pr).1.1 !! p = o_files (process_file fs p) !! p.
Proof.
  induction 1 as [|p0 l Hp Hl IH]; intros fs n pr.
  { cbn. rewrite app_nil_r. repeat split; [lia|]. intros p Hin. by apply elem_of_nil in Hin. }
  cbn [main_loop]. set (o := process_file fs p0).
  destruct (IH (o_files o) (if o_result o then S n else n) (pr ++ o_printed o))
    as (IH1 & IH2 & IH3).
  assert (Hl' : ∀ p, p ∈ l → o_files o !! p = fs !! p).
  { intros p Hin. apply process_file_frame. by intros ->. }
  split; [|split].
  - rewrite IH1. cbn [flat_map]. rewrite <- app_assoc. do 2 f_equal.
    apply flat_map_ext_in. intros p Hin. by apply process_file_local, Hl'.
  - rewrite IH2, filter_cons.
    rewrite (filter_ext_in (λ p, o_result (process_file (o_files o) p) = true)
                           (λ p, o_result (process_file fs p) = true)).
    2: { intros p Hin. destruct (process_file_local _ _ p (Hl' p Hin)) as [-> _]. done. }
    fold o. destruct (o_result o).
    + rewrite decide_True by done. cbn [length]. lia.
    + rewrite decide_False by done. lia.
  - intros p Hin. apply elem_of_cons in Hin as [->|Hin].
    + by apply main_loop_frame.
    + rewrite IH3 by done. by apply process_file_local, Hl'.
Qed.

(** X19: [main] treats its three files independently: the lines it
    prints for a file, whether it counts the file, and the content it
    leaves in it are those of [process_file] on that file alone. *)
Theorem X19_main_files_independent fs :
  mo_printed (main fs)
  = map FileLine (flat_map (λ p, o_printed (process_file fs p)) main_files)
    ++ [EmptyLine; RuleLine 60; UpdatedFiles (mo_updated_count (main fs)) 3; RuleLine 60]
  ∧ mo_updated_count (main fs)
    = length (filter (λ p, o_result (process_file fs p) = true) main_files)
  ∧ ∀ p, p ∈ main_files → mo_files (main fs) !! p = o_files (process_file fs p) !! p.
Proof.
  rewrite main_eq. cbn [mo_files mo_updated_count mo_printed].
  destruct (main_loop_independent main_files main_files_NoDup fs 0 []) as (H1 & H2 & H3).
  by rewrite H1.
Qed.
